(** * Checkout URL utilities (URL Language Enhancer)

    A shallow embedding of the checkout utility module of the
    dodopayments TypeScript SDK: [enhanceCheckoutUrl],
    [extractLanguageFromUrl], [isValidLanguageCode], [BrowserUtils],
    [redirectToCheckout] and [getIframeSafeCheckoutUrl], and of the example
    script that uses the SDK ([appendLanguageToCheckoutUrl] and the checkout
    flows built on it).

    JavaScript strings are modelled as [string] (sequences of 8-bit code
    units), values of type [string | null | undefined] as [nullable], optional
    fields as [option], and abrupt completion ([throw]) by the [completion]
    monad.  The ambient globals the module reads through [globalThis] (the
    URL constructor, [navigator], [window]) are the fields of an explicit
    environment [Env]; each of them may be missing. *)

From Stdlib Require Import Bool Arith List Ascii String Lia Permutation.
Import ListNotations.

Local Open Scope string_scope.
Local Open Scope list_scope.

Set Implicit Arguments.

(* ================================================================== *)
(** ** JavaScript values and control flow *)

Module Js.

(** A value of type [T | null | undefined]. *)
Inductive nullable (T : Type) : Type :=
| Null
| Undefined
| Val (v : T).
Arguments Null {T}.
Arguments Undefined {T}.

(** Errors that the module or its environment can throw. *)
Inductive error : Type :=
| TypeError (msg : string)
| Error (msg : string).

(** Completion of an evaluation: a value, or a thrown error. *)
Inductive completion (A : Type) : Type :=
| Normal (a : A)
| Throw (e : error).
Arguments Throw {A} e.

Definition bind {A B} (c : completion A) (k : A -> completion B)
  : completion B :=
  match c with
  | Normal a => k a
  | Throw e => Throw e
  end.

(** [try { body } catch (e) { handler e }] *)
Definition try_catch {A} (body : completion A) (handler : error -> completion A)
  : completion A :=
  match body with
  | Normal a => Normal a
  | Throw e => handler e
  end.

(** A completion is normal when nothing was thrown. *)
Definition returns {A} (c : completion A) : Prop := exists a, c = Normal a.

(** [ToBoolean] on strings: only the empty string is falsy. *)
Definition truthy (s : string) : bool :=
  match s with
  | EmptyString => false
  | String _ _ => true
  end.

(** [ToBoolean] on [string | null | undefined]. *)
Definition truthy_nullable (v : nullable string) : bool :=
  match v with
  | Val s => truthy s
  | _ => false
  end.

(** [ToBoolean] on an optional string ([undefined] when missing). *)
Definition truthy_opt (v : option string) : bool :=
  match v with
  | Some s => truthy s
  | None => false
  end.

(** [a || b] on [string | null]: the left operand when it is truthy,
    else the right operand, whatever it is. *)
Definition or_else (a b : option string) : option string :=
  if truthy_opt a then a else b.

(** A destructuring default [x = d]: applies when the field is undefined. *)
Definition default {A} (d : A) (o : option A) : A :=
  match o with
  | Some a => a
  | None => d
  end.

(** [String.prototype.startsWith] *)
Fixpoint startsWith (s sub : string) {struct sub} : bool :=
  match sub, s with
  | EmptyString, _ => true
  | String c sub', String d s' => Ascii.eqb c d && startsWith s' sub'
  | String _ _, EmptyString => false
  end.

(** [String.prototype.includes]: [sub] occurs at some position of [s]. *)
Fixpoint includes (s sub : string) : bool :=
  startsWith s sub ||
  match s with
  | EmptyString => false
  | String _ s' => includes s' sub
  end.

Definition is_upper (c : ascii) : bool :=
  ((65 <=? nat_of_ascii c) && (nat_of_ascii c <=? 90))%nat.

Definition is_lower (c : ascii) : bool :=
  ((97 <=? nat_of_ascii c) && (nat_of_ascii c <=? 122))%nat.

Definition lower_char (c : ascii) : ascii :=
  if is_upper c then ascii_of_nat (nat_of_ascii c + 32)%nat else c.

(** [String.prototype.toLowerCase] on 8-bit code units: [A-Z] to [a-z]. *)
Fixpoint toLowerCase (s : string) : string :=
  match s with
  | EmptyString => EmptyString
  | String c s' => String (lower_char c) (toLowerCase s')
  end.

(** [s.split(sep)[0]]: the part of [s] before the first [sep]. *)
Fixpoint before (sep : ascii) (s : string) : string :=
  match s with
  | EmptyString => EmptyString
  | String c s' => if Ascii.eqb c sep then EmptyString else String c (before sep s')
  end.

End Js.
Import Js.

Declare Scope js_scope.
Notation "x <- c ;; k" := (bind c (fun x => k))
  (at level 61, c at next level, right associativity) : js_scope.
Local Open Scope js_scope.

(* ================================================================== *)
(** ** The environment's URL primitive *)

(** The list operations of [URLSearchParams] (URL Standard, 6.2), on the
    list of decoded name-value pairs of a query. *)
Module URLSearchParams.

Definition t := list (string * string).

(** [get(name)]: the value of the first pair named [name], else null. *)
Fixpoint get (name : string) (l : t) : option string :=
  match l with
  | [] => None
  | (k, v) :: l' => if String.eqb k name then Some v else get name l'
  end.

(** [has(name)]: whether a pair named [name] exists. *)
Fixpoint has (name : string) (l : t) : bool :=
  match l with
  | [] => false
  | (k, _) :: l' => String.eqb k name || has name l'
  end.

(** Removes all pairs named [name]. *)
Fixpoint remove (name : string) (l : t) : t :=
  match l with
  | [] => []
  | (k, v) :: l' =>
      if String.eqb k name then remove name l' else (k, v) :: remove name l'
  end.

(** [set(name, value)]: if pairs named [name] exist, the first one gets
    [value] and the others are removed; otherwise the pair is appended. *)
Fixpoint set (name value : string) (l : t) : t :=
  match l with
  | [] => [(name, value)]
  | (k, v) :: l' =>
      if String.eqb k name then (name, value) :: remove name l'
      else (k, v) :: set name value l'
  end.

(** [getAll(name)] *)
Fixpoint getAll (name : string) (l : t) : list string :=
  match l with
  | [] => []
  | (k, v) :: l' =>
      if String.eqb k name then v :: getAll name l' else getAll name l'
  end.

End URLSearchParams.

(** What the module uses of the [URL] class: the constructor (which throws
    on a string that does not parse), the components, the query as a list
    of pairs with its write-back, and [toString]. *)
Record UrlApi : Type := {
  url : Type;
  parse : string -> option url;
  scheme : url -> string;
  host : url -> string;
  pathname : url -> string;
  searchParams : url -> URLSearchParams.t;
  withSearchParams : URLSearchParams.t -> url -> url;
  toString : url -> string;
  wf : url -> Prop
}.

(** What the URL Standard guarantees of the primitive: the empty string is
    not a URL, parsing yields a well-formed URL object, updating the query
    touches the query only, and a well-formed URL object parses back from
    its serialisation. *)
Record UrlLaws (api : UrlApi) : Prop := {
  parse_empty : parse api "" = None;
  parse_wf : forall s u, parse api s = Some u -> wf api u;
  with_wf : forall q u, wf api u -> wf api (withSearchParams api q u);
  with_searchParams : forall q u, searchParams api (withSearchParams api q u) = q;
  with_scheme : forall q u, scheme api (withSearchParams api q u) = scheme api u;
  with_host : forall q u, host api (withSearchParams api q u) = host api u;
  with_pathname : forall q u, pathname api (withSearchParams api q u) = pathname api u;
  parse_toString : forall u, wf api u -> parse api (toString api u) = Some u
}.

(** [new URL(s)] *)
Definition new_URL (api : UrlApi) (s : string) : completion (url api) :=
  match parse api s with
  | Some u => Normal u
  | None => Throw (TypeError "Invalid URL")
  end.

(** [url.searchParams.set(name, value)] *)
Definition searchParams_set (api : UrlApi) (name value : string) (u : url api)
  : url api :=
  withSearchParams api (URLSearchParams.set name value (searchParams api u)) u.

(** [url.searchParams.has(name)] *)
Definition searchParams_has (api : UrlApi) (name : string) (u : url api) : bool :=
  URLSearchParams.has name (searchParams api u).

(** [url.searchParams.get(name)] *)
Definition searchParams_get (api : UrlApi) (name : string) (u : url api)
  : option string :=
  URLSearchParams.get name (searchParams api u).

(* ================================================================== *)
(** ** The ambient environment *)

(** [declare const navigator: { userAgent: string; language: string } | undefined] *)
Module Navigator.
Record t : Type := { userAgent : string; language : string }.
End Navigator.

(** [declare const window: { location: { href: string } } | undefined] *)
Module Window.
Record Location : Type := { href : string }.
Record t : Type := { location : Location }.
End Window.

Record Env : Type := {
  URL : option UrlApi;
  navigator : option Navigator.t;
  window : option Window.t
}.

(* ================================================================== *)
(** ** The module *)

(** [interface CheckoutUrlOptions] *)
Record CheckoutUrlOptions : Type := {
  language : option string;
  additionalParams : option (list (string * string));
  preserveExisting : option bool
}.

(** The options object [{}]. *)
Definition no_options : CheckoutUrlOptions :=
  {| language := None; additionalParams := None; preserveExisting := None |}.

(** The body of the [forEach] callback over [Object.entries(additionalParams)]. *)
Definition merge_entry (api : UrlApi) (preserve : bool) (u : url api)
  (entry : string * string) : url api :=
  let (key, value) := entry in
  if preserve || negb (searchParams_has api key u)
  then searchParams_set api key value u
  else u.

(** [if (language) url.searchParams.set('lang', language)] *)
Definition apply_language (api : UrlApi) (lang : option string) (u : url api)
  : url api :=
  match lang with
  | Some l => if truthy l then searchParams_set api "lang" l u else u
  | None => u
  end.

Definition enhanceCheckoutUrl (env : Env) (checkoutUrl : nullable string)
  (options : CheckoutUrlOptions) : completion (option string) :=
  match checkoutUrl with
  | Val s =>
      if negb (truthy s) then Normal None
      else
        let lang := language options in
        let params := default [] (additionalParams options) in
        let preserve := default true (preserveExisting options) in
        try_catch
          (match URL env with
           | None => Normal (Some s)
           | Some api =>
               u <- new_URL api s ;;
               let u1 := apply_language api lang u in
               let u2 := fold_left (merge_entry api preserve) params u1 in
               Normal (Some (toString api u2))
           end)
          (fun _ => Normal (Some s))
  | _ => Normal None
  end.

Definition extractLanguageFromUrl (env : Env) (checkoutUrl : string)
  : completion (option string) :=
  try_catch
    (match URL env with
     | None => Normal None
     | Some api =>
         u <- new_URL api checkoutUrl ;;
         Normal (or_else (searchParams_get api "lang" u)
                   (or_else (searchParams_get api "language" u)
                      (searchParams_get api "locale" u)))
     end)
    (fun _ => Normal None).

(* ------------------------------------------------------------------ *)
(** *** Regular expressions, as far as the module's literal needs them *)

Module RegExp.

(** Pattern syntax: a character, a class range [[lo-hi]], juxtaposition,
    [r?], [r{n}], and the assertions [^] and [$]. *)
Inductive pattern : Type :=
| Chr (c : ascii)
| Range (lo hi : ascii)
| Seq (r1 r2 : pattern)
| Opt (r : pattern)
| Repeat (n : nat) (r : pattern)
| Bol
| Eol.

Definition in_range (lo hi c : ascii) : bool :=
  ((nat_of_ascii lo <=? nat_of_ascii c) && (nat_of_ascii c <=? nat_of_ascii hi))%nat.

(** Backtracking matcher in continuation-passing style.  [at_start] tells
    whether the current position is index 0 of the input, [s] is the input
    from the current position on, and [k] continues after the match.
    Without the multiline flag [^] holds at index 0 only and [$] at the
    end of the input only. *)
Fixpoint run (r : pattern) (at_start : bool) (s : string)
  (k : bool -> string -> bool) {struct r} : bool :=
  match r with
  | Chr c =>
      match s with
      | String d s' => Ascii.eqb c d && k false s'
      | EmptyString => false
      end
  | Range lo hi =>
      match s with
      | String d s' => in_range lo hi d && k false s'
      | EmptyString => false
      end
  | Seq r1 r2 => run r1 at_start s (fun b s' => run r2 b s' k)
  | Opt r1 => run r1 at_start s k || k at_start s
  | Repeat n r1 =>
      (fix rep (n : nat) (b : bool) (s : string) {struct n} : bool :=
         match n with
         | O => k b s
         | S n' => run r1 b s (fun b' s' => rep n' b' s')
         end) n at_start s
  | Bol => at_start && k at_start s
  | Eol =>
      match s with
      | EmptyString => k at_start s
      | String _ _ => false
      end
  end.

(** Tries a match at the current position, then at each later one. *)
Fixpoint search (r : pattern) (at_start : bool) (s : string) : bool :=
  run r at_start s (fun _ _ => true) ||
  match s with
  | EmptyString => false
  | String _ s' => search r false s'
  end.

(** [RegExp.prototype.test]: whether the pattern matches somewhere. *)
Definition test (r : pattern) (s : string) : bool := search r true s.

End RegExp.

(** The literal [/^[a-z]{2}(-[A-Z]{2})?$/]. *)
Definition languageCodePattern : RegExp.pattern :=
  RegExp.Seq RegExp.Bol
    (RegExp.Seq (RegExp.Repeat 2 (RegExp.Range "a" "z"))
       (RegExp.Seq
          (RegExp.Opt
             (RegExp.Seq (RegExp.Chr "-") (RegExp.Repeat 2 (RegExp.Range "A" "Z"))))
          RegExp.Eol)).

Definition isValidLanguageCode (language : string) : bool :=
  RegExp.test languageCodePattern language.

(* ------------------------------------------------------------------ *)
(** *** Browser detection *)

Module BrowserUtils.

Definition isChromium (env : Env) : bool :=
  match navigator env with
  | None => false
  | Some nav =>
      let ua := toLowerCase (Navigator.userAgent nav) in
      includes ua "chrome" || includes ua "chromium" || includes ua "edge"
  end.

Definition isFirefox (env : Env) : bool :=
  match navigator env with
  | None => false
  | Some nav => includes (toLowerCase (Navigator.userAgent nav)) "firefox"
  end.

Definition needsLanguageWorkaround (env : Env) : bool :=
  isChromium env.

Definition getPreferredLanguage (env : Env) : string :=
  match navigator env with
  | None => "en"
  | Some nav =>
      if truthy (Navigator.language nav)
      then before "-" (Navigator.language nav)
      else "en"
  end.

End BrowserUtils.

(* ------------------------------------------------------------------ *)
(** *** Redirect and iframe helpers *)

(** [win.location.href = v]: the environment after the assignment. *)
Definition set_location_href (env : Env) (v : string) : Env :=
  {| URL := URL env;
     navigator := navigator env;
     window := Some {| Window.location := {| Window.href := v |} |} |}.

(** The environment is threaded through: the result is the environment
    after the navigation, if any.  The parameter [checkoutUrl] is declared
    [string]; it is passed on as it is to [enhanceCheckoutUrl], which takes
    null and undefined too, so the wider type is kept here. *)
Definition redirectToCheckout (env : Env) (checkoutUrl : nullable string)
  (lang : option string) : completion Env :=
  match window env with
  | None =>
      Throw (Error "redirectToCheckout can only be used in browser environment")
  | Some _ =>
      enhancedUrl <-
        enhanceCheckoutUrl env checkoutUrl
          (if truthy_opt lang
           then {| language := lang; additionalParams := None;
                   preserveExisting := None |}
           else no_options) ;;
      match enhancedUrl with
      | Some target =>
          if truthy target then Normal (set_location_href env target)
          else Normal env
      | None => Normal env
      end
  end.

(** [checkoutUrl] is passed on to [enhanceCheckoutUrl] as it is, as above. *)
Definition getIframeSafeCheckoutUrl (env : Env) (checkoutUrl : nullable string)
  (lang : option string) : completion (option string) :=
  let options :=
    {| language := None;
       additionalParams := Some [("embedded", "true")];
       preserveExisting := None |} in
  let options :=
    if truthy_opt lang
    then {| language := lang;
            additionalParams := additionalParams options;
            preserveExisting := preserveExisting options |}
    else options in
  enhanceCheckoutUrl env checkoutUrl options.

(* ================================================================== *)
(** ** A URL primitive for a fragment of the URL syntax

    An executable implementation of [UrlApi] for URLs of the shape
    [scheme://host/path?query#fragment], with the query in
    application/x-www-form-urlencoded form.  It gives the environments in
    which the functions are run on concrete inputs. *)

Module SimpleUrl.

Record t : Type := {
  scheme : string;
  host : string;
  pathname : string;
  query : URLSearchParams.t;
  hash : option string
}.

(** Whether every character of [s] satisfies [p]. *)
Fixpoint all (p : ascii -> bool) (s : string) : bool :=
  match s with
  | EmptyString => true
  | String c s' => p c && all p s'
  end.

Definition is_digit (c : ascii) : bool :=
  ((48 <=? nat_of_ascii c) && (nat_of_ascii c <=? 57))%nat.

Definition is_alnum (c : ascii) : bool :=
  is_lower c || is_upper c || is_digit c.

(** Characters the form-urlencoded serialiser leaves as they are. *)
Definition unreserved (c : ascii) : bool :=
  is_alnum c || Ascii.eqb c "*" || Ascii.eqb c "-" || Ascii.eqb c "."
  || Ascii.eqb c "_".

Definition hex_digit (n : nat) : ascii :=
  if (n <? 10)%nat then ascii_of_nat (48 + n) else ascii_of_nat (55 + n).

Definition hex_value (c : ascii) : option nat :=
  let n := nat_of_ascii c in
  if is_digit c then Some (n - 48)%nat
  else if ((65 <=? n) && (n <=? 70))%nat then Some (n - 55)%nat
  else if ((97 <=? n) && (n <=? 102))%nat then Some (n - 87)%nat
  else None.

Definition encode_char (c : ascii) : string :=
  if unreserved c then String c EmptyString
  else if Ascii.eqb c " " then "+"
  else String "%"
         (String (hex_digit (nat_of_ascii c / 16))
            (String (hex_digit (nat_of_ascii c mod 16)) EmptyString)).

Fixpoint encode (s : string) : string :=
  match s with
  | EmptyString => EmptyString
  | String c s' => encode_char c ++ encode s'
  end.

Fixpoint decode (s : string) : string :=
  match s with
  | EmptyString => EmptyString
  | String c s1 =>
      if Ascii.eqb c "+" then String " " (decode s1)
      else if Ascii.eqb c "%" then
        match s1 with
        | String h (String l s3) =>
            match hex_value h, hex_value l with
            | Some a, Some b => String (ascii_of_nat (16 * a + b)) (decode s3)
            | _, _ => String c (decode s1)
            end
        | _ => String c (decode s1)
        end
      else String c (decode s1)
  end.

(** Splits at the first [sep]: the part before it and, when there is
    one, the part after it. *)
Fixpoint break (sep : ascii) (s : string) : string * option string :=
  match s with
  | EmptyString => (EmptyString, None)
  | String c s' =>
      if Ascii.eqb c sep then (EmptyString, Some s')
      else let (a, b) := break sep s' in (String c a, b)
  end.

(** The pieces of [s] between occurrences of [sep]. *)
Fixpoint split (sep : ascii) (s : string) : list string :=
  match s with
  | EmptyString => [EmptyString]
  | String c s' =>
      if Ascii.eqb c sep then EmptyString :: split sep s'
      else match split sep s' with
           | piece :: rest => String c piece :: rest
           | [] => [String c EmptyString]
           end
  end.

Definition serialize_pair (p : string * string) : string :=
  encode (fst p) ++ "=" ++ encode (snd p).

Fixpoint serialize_query (q : URLSearchParams.t) : string :=
  match q with
  | [] => EmptyString
  | [p] => serialize_pair p
  | p :: q' => serialize_pair p ++ "&" ++ serialize_query q'
  end.

Definition parse_pair (piece : string) : string * string :=
  let (name, value) := break "=" piece in
  (decode name, decode (default EmptyString value)).

Definition parse_query (s : string) : URLSearchParams.t :=
  map parse_pair (filter truthy (split "&" s)).

Definition host_char (c : ascii) : bool :=
  is_lower c || is_digit c || Ascii.eqb c "." || Ascii.eqb c "-".

Definition path_char (c : ascii) : bool :=
  negb (Ascii.eqb c "?") && negb (Ascii.eqb c "#").

Definition valid_scheme (s : string) : bool := truthy s && all is_lower s.
Definition valid_host (s : string) : bool := truthy s && all host_char s.
Definition valid_path (s : string) : bool :=
  startsWith s "/" && all path_char s.

Definition valid (u : t) : bool :=
  valid_scheme (scheme u) && valid_host (host u) && valid_path (pathname u).

(** The rest of [s] from the first [sep] on, [sep] included. *)
Fixpoint from (sep : ascii) (s : string) : string :=
  match s with
  | EmptyString => EmptyString
  | String c s' => if Ascii.eqb c sep then s else from sep s'
  end.

Definition parse (s : string) : option t :=
  let (s1, fragment) := break "#" s in
  let (base, qs) := break "?" s1 in
  let (sch, rest) := break ":" base in
  match rest with
  | Some (String "/" (String "/" authority_path)) =>
      let u := {| scheme := sch;
                  host := before "/" authority_path;
                  pathname := from "/" authority_path;
                  query := match qs with
                           | Some q => parse_query q
                           | None => []
                           end;
                  hash := fragment |} in
      if valid u then Some u else None
  | _ => None
  end.

Definition toString (u : t) : string :=
  scheme u ++ "://" ++ host u ++ pathname u
  ++ match query u with
     | [] => EmptyString
     | _ :: _ => "?" ++ serialize_query (query u)
     end
  ++ match hash u with
     | None => EmptyString
     | Some h => "#" ++ h
     end.

Definition withSearchParams (q : URLSearchParams.t) (u : t) : t :=
  {| scheme := scheme u; host := host u; pathname := pathname u;
     query := q; hash := hash u |}.

(** [differs c d]: the character [d] is not [c]. *)
Definition differs (c : ascii) : ascii -> bool := fun d => negb (Ascii.eqb d c).

(** Characters of an encoded name or value. *)
Definition encoded_char (c : ascii) : bool :=
  unreserved c || Ascii.eqb c "+" || Ascii.eqb c "%".

(** The serialisation of the query and of the fragment. *)
Definition query_part (q : URLSearchParams.t) : string :=
  match q with
  | [] => EmptyString
  | _ :: _ => String "?" (serialize_query q)
  end.

Definition hash_part (h : option string) : string :=
  match h with
  | None => EmptyString
  | Some f => String "#" f
  end.

Definition base_part (sch h p : string) : string :=
  (sch ++ String ":" (String "/" (String "/" (h ++ p))))%string.

Definition api : UrlApi :=
  @Build_UrlApi t parse scheme host pathname query withSearchParams toString
    (fun u => valid u = true).

End SimpleUrl.

(** A browser: URL primitive, a Chrome user agent, a window. *)
Definition browser_env : Env :=
  {| URL := Some SimpleUrl.api;
     navigator :=
       Some {| Navigator.userAgent :=
                 "Mozilla/5.0 (X11; Linux x86_64) AppleWebKit/537.36 (KHTML, like Gecko) Chrome/117.0.0.0 Safari/537.36";
               Navigator.language := "de-DE" |};
     window :=
       Some {| Window.location := {| Window.href := "https://shop.example/cart" |} |} |}.

(** A bare script host: none of the three globals. *)
Definition bare_env : Env :=
  {| URL := None; navigator := None; window := None |}.

(** The same browser with a Firefox user agent. *)
Definition firefox_env : Env :=
  {| URL := Some SimpleUrl.api;
     navigator :=
       Some {| Navigator.userAgent :=
                 "Mozilla/5.0 (X11; Linux x86_64; rv:119.0) Gecko/20100101 Firefox/119.0";
               Navigator.language := "en-US" |};
     window :=
       Some {| Window.location := {| Window.href := "https://shop.example/cart" |} |} |}.

(* ================================================================== *)
(** ** Vocabulary of the specification *)

(** Null or undefined. *)
Definition absent {T} (v : nullable T) : Prop := v = Null \/ v = Undefined.

(** The string does not parse as a URL in this environment: there is no URL
    parser, or the parser rejects it. *)
Definition fails_to_parse (env : Env) (s : string) : Prop :=
  match URL env with
  | None => True
  | Some api => parse api s = None
  end.

(** The options object [{ language: l }]. *)
Definition language_only (l : string) : CheckoutUrlOptions :=
  {| language := Some l; additionalParams := None; preserveExisting := None |}.

(** The query once the language option has been applied. *)
Definition language_applied (lang : option string) (q : URLSearchParams.t)
  : URLSearchParams.t :=
  match lang with
  | Some l => if truthy l then URLSearchParams.set "lang" l q else q
  | None => q
  end.

(** One entry of [additionalParams] merged into a query. *)
Definition merge_pair (preserve : bool) (q : URLSearchParams.t)
  (entry : string * string) : URLSearchParams.t :=
  let (key, value) := entry in
  if preserve || negb (URLSearchParams.has key q)
  then URLSearchParams.set key value q
  else q.

(** A lookup that found nothing, or found the empty string. *)
Definition blank (o : option string) : Prop := o = None \/ o = Some "".

(** [result] is a URL string that parses, in which [lang] is the one value
    of the parameter [lang], and whose scheme, host and path are those of
    [u]. *)
Definition carries_language (api : UrlApi) (u : url api) (lang : string)
  (result : completion (option string)) : Prop :=
  exists r u',
    result = Normal (Some r) /\ parse api r = Some u' /\
    searchParams_get api "lang" u' = Some lang /\
    URLSearchParams.getAll "lang" (searchParams api u') = [lang] /\
    scheme api u' = scheme api u /\ host api u' = host api u /\
    pathname api u' = pathname api u.

(** The fail-soft contract in its unrestricted form: no throw, null for
    absent input, the input itself for every string that does not parse. *)
Definition fail_soft (env : Env) (input : nullable string)
  (result : completion (option string)) : Prop :=
  returns result /\
  (absent input -> result = Normal None) /\
  (forall s, input = Val s -> fails_to_parse env s -> result = Normal (Some s)).

(** What every update of the query leaves alone: well-formedness and the
    components outside the query. *)
Definition same_base (api : UrlApi) (u u' : url api) : Prop :=
  (wf api u -> wf api u') /\
  scheme api u' = scheme api u /\ host api u' = host api u /\
  pathname api u' = pathname api u.

(** The first of [lang], [language], [locale] that the query has, taking a
    parameter for present whatever its value. *)
Definition first_present (q : URLSearchParams.t) : option string :=
  match URLSearchParams.get "lang" q with
  | Some v => Some v
  | None =>
      match URLSearchParams.get "language" q with
      | Some v => Some v
      | None => URLSearchParams.get "locale" q
      end
  end.

(** Extraction by presence: the value of the first parameter present, null
    when none is or when the string does not parse. *)
Definition extracts_first_present (env : Env) (s : string)
  (result : completion (option string)) : Prop :=
  (fails_to_parse env s -> result = Normal None) /\
  (forall api u, URL env = Some api -> parse api s = Some u ->
     result = Normal (first_present (searchParams api u))).

(** Null whenever no candidate has a non-empty value. *)
Definition null_when_all_blank (q : URLSearchParams.t)
  (result : completion (option string)) : Prop :=
  blank (URLSearchParams.get "lang" q) ->
  blank (URLSearchParams.get "language" q) ->
  blank (URLSearchParams.get "locale" q) ->
  result = Normal None.

(** [result] is a URL string that parses and in which the entry
    [(key, value)] of [additionalParams] has been merged against the query
    [base]: with [preserve] the parameter has the single value [value];
    without it, a parameter that [base] has keeps its values, and one that
    [base] lacks gets the single value [value]. *)
Definition merged_against (api : UrlApi) (base : URLSearchParams.t)
  (preserve : bool) (key value : string)
  (result : completion (option string)) : Prop :=
  exists r u',
    result = Normal (Some r) /\ parse api r = Some u' /\
    (preserve = true ->
     URLSearchParams.getAll key (searchParams api u') = [value]) /\
    (preserve = false -> URLSearchParams.has key base = true ->
     URLSearchParams.getAll key (searchParams api u')
     = URLSearchParams.getAll key base) /\
    (preserve = false -> URLSearchParams.has key base = false ->
     URLSearchParams.getAll key (searchParams api u') = [value]).

(** [result] is a URL string that parses, has [embedded=true], and has
    [lang] set to the language whenever one is passed. *)
Definition iframe_safe (api : UrlApi) (lang : option string)
  (result : completion (option string)) : Prop :=
  exists r u',
    result = Normal (Some r) /\ parse api r = Some u' /\
    searchParams_get api "embedded" u' = Some "true" /\
    (forall l, lang = Some l -> searchParams_get api "lang" u' = Some l).

(** Two lowercase letters, optionally followed by a hyphen and two
    uppercase letters. *)
Definition language_tag_shape (s : string) : Prop :=
  exists a b,
    is_lower a = true /\ is_lower b = true /\
    (s = String a (String b EmptyString) \/
     exists c d,
       is_upper c = true /\ is_upper d = true /\
       s = String a (String b (String "-" (String c (String d EmptyString))))).

(** [marker] occurs in [s] when the case of letters is ignored. *)
Definition occurs_ignoring_case (s marker : string) : Prop :=
  exists pre w post,
    s = (pre ++ w ++ post)%string /\ toLowerCase w = toLowerCase marker.

(** The error of [redirectToCheckout] outside a browser. *)
Definition unsupported_environment : error :=
  Error "redirectToCheckout can only be used in browser environment".

(* ================================================================== *)
(** ** The module on globals of any shape

    The functions read [(globalThis as any).navigator] and
    [(globalThis as any).window]: the declarations of [navigator] and
    [window] do not constrain what is found there.  Here the value found,
    when it is truthy, is described by the properties the code reads,
    each a string or missing; reading a property of [undefined] throws a
    [TypeError]. *)
Module Untyped.

(** A truthy value at [globalThis.navigator]: its [userAgent] and
    [language], where it has them. *)
Module AnyNavigator.
Record t : Type := { userAgent : option string; language : option string }.
End AnyNavigator.

(** A truthy value at [globalThis.window]: its [location], where it has
    one. *)
Module AnyWindow.
Record t : Type := { location : option Window.Location }.
End AnyWindow.

Module Globals.
Record t : Type := {
  URL : option UrlApi;
  navigator : option AnyNavigator.t;
  window : option AnyWindow.t
}.
End Globals.

(** The environment of the functions that read [globalThis.URL] only. *)
Definition url_env (g : Globals.t) : Env :=
  {| URL := Globals.URL g; navigator := None; window := None |}.

(** [nav.userAgent.toLowerCase()] *)
Definition userAgent_toLowerCase (nav : AnyNavigator.t) : completion string :=
  match AnyNavigator.userAgent nav with
  | Some ua => Normal (toLowerCase ua)
  | None =>
      Throw (TypeError "Cannot read properties of undefined (reading 'toLowerCase')")
  end.

Module BrowserUtils.

Definition isChromium (g : Globals.t) : completion bool :=
  match Globals.navigator g with
  | None => Normal false
  | Some nav =>
      ua <- userAgent_toLowerCase nav ;;
      Normal (includes ua "chrome" || includes ua "chromium" || includes ua "edge")
  end.

Definition isFirefox (g : Globals.t) : completion bool :=
  match Globals.navigator g with
  | None => Normal false
  | Some nav =>
      ua <- userAgent_toLowerCase nav ;;
      Normal (includes ua "firefox")
  end.

Definition needsLanguageWorkaround (g : Globals.t) : completion bool :=
  isChromium g.

Definition getPreferredLanguage (g : Globals.t) : completion string :=
  match Globals.navigator g with
  | None => Normal "en"
  | Some nav =>
      match AnyNavigator.language nav with
      | Some l => if truthy l then Normal (before "-" l) else Normal "en"
      | None => Normal "en"
      end
  end.

End BrowserUtils.

(** [win.location.href = v]: throws when [win.location] is undefined. *)
Definition assign_href (g : Globals.t) (win : AnyWindow.t) (v : string)
  : completion Globals.t :=
  match AnyWindow.location win with
  | Some _ =>
      Normal
        {| Globals.URL := Globals.URL g;
           Globals.navigator := Globals.navigator g;
           Globals.window :=
             Some {| AnyWindow.location := Some {| Window.href := v |} |} |}
  | None =>
      Throw (TypeError "Cannot set properties of undefined (setting 'href')")
  end.

Definition redirectToCheckout (g : Globals.t) (checkoutUrl : nullable string)
  (lang : option string) : completion Globals.t :=
  match Globals.window g with
  | None =>
      Throw (Error "redirectToCheckout can only be used in browser environment")
  | Some win =>
      enhancedUrl <-
        enhanceCheckoutUrl (url_env g) checkoutUrl
          (if truthy_opt lang
           then {| language := lang; additionalParams := None;
                   preserveExisting := None |}
           else no_options) ;;
      match enhancedUrl with
      | Some target =>
          if truthy target then assign_href g win target else Normal g
      | None => Normal g
      end
  end.

(** The globals of an environment that has the declared shape. *)
Definition of_env (env : Env) : Globals.t :=
  {| Globals.URL := URL env;
     Globals.navigator :=
       option_map
         (fun nav =>
            {| AnyNavigator.userAgent := Some (Navigator.userAgent nav);
               AnyNavigator.language := Some (Navigator.language nav) |})
         (navigator env);
     Globals.window :=
       option_map
         (fun win =>
            {| AnyWindow.location := Some (Window.location win) |})
         (window env) |}.

End Untyped.

(** Globals whose [navigator] is the empty object [{}]. *)
Definition empty_navigator_globals : Untyped.Globals.t :=
  {| Untyped.Globals.URL := None;
     Untyped.Globals.navigator :=
       Some {| Untyped.AnyNavigator.userAgent := None;
               Untyped.AnyNavigator.language := None |};
     Untyped.Globals.window := None |}.

(** There is a navigator, and it has no [userAgent]. *)
Definition navigator_without_userAgent (g : Untyped.Globals.t) : Prop :=
  exists nav,
    Untyped.Globals.navigator g = Some nav /\
    Untyped.AnyNavigator.userAgent nav = None.

(** There is a window, and it has no [location]. *)
Definition window_without_location (g : Untyped.Globals.t) : Prop :=
  exists win,
    Untyped.Globals.window g = Some win /\
    Untyped.AnyWindow.location win = None.

(* ================================================================== *)
(** ** The example script: checkout with a language *)

(** [appendLanguageToCheckoutUrl(checkoutUrl, language)] of the example
    script: sets both [lang] and [language], with no guard on either
    argument. *)
Definition appendLanguageToCheckoutUrl (env : Env) (checkoutUrl lang : string)
  : completion string :=
  try_catch
    (match URL env with
     | None => Normal checkoutUrl
     | Some api =>
         u <- new_URL api checkoutUrl ;;
         let u1 := searchParams_set api "lang" lang u in
         let u2 := searchParams_set api "language" lang u1 in
         Normal (toString api u2)
     end)
    (fun _ => Normal checkoutUrl).

(** The rest of the example script.  The API client is the SDK's and is
    taken as a parameter: [client.checkoutSessions.create(params)] answers a
    request with a session or rejects, and may keep state of its own.  An
    [await] of a rejected promise throws; the async functions are run as
    sequential computations over the console and the client's state, with
    nothing else scheduled in between. *)
Module Example.

Record ProductCartItem : Type := { product_id : string; quantity : nat }.

Record Customization : Type := {
  force_language : option string;
  theme : option string;
  show_order_details : option bool
}.

Record Customer : Type := { email : string; name : string }.

Record CheckoutSessionCreateParams : Type := {
  product_cart : list ProductCartItem;
  customization : option Customization;
  customer : option Customer
}.

Record CheckoutSession : Type := {
  session_id : string;
  checkout_url : nullable string
}.

Record Client : Type := {
  backend : Type;
  create : CheckoutSessionCreateParams -> backend
           -> completion CheckoutSession * backend
}.

Section Script.

Variable client : Client.

(** What the script runs in: the globals, the console (a log of the
    argument lists of the calls of [console.log]) if there is one, and the
    state of the API client. *)
Record World : Type := {
  globals : Env;
  console : option (list (list string));
  server : backend client
}.

Definition script (A : Type) : Type := World -> completion A * World.

Definition ret {A} (a : A) : script A := fun w => (Normal a, w).

Definition throw {A} (e : error) : script A := fun w => (Throw e, w).

Definition andThen {A B} (m : script A) (k : A -> script B) : script B :=
  fun w =>
    match m w with
    | (Normal a, w') => k a w'
    | (Throw e, w') => (Throw e, w')
    end.

(** A function of the module, run on the globals. *)
Definition inEnv {A} (f : Env -> completion A) : script A :=
  fun w => (f (globals w), w).

(** [await client.checkoutSessions.create(params)] *)
Definition await_create (params : CheckoutSessionCreateParams)
  : script CheckoutSession :=
  fun w =>
    let (answer, sv) := create client params (server w) in
    (answer, {| globals := globals w; console := console w; server := sv |}).

(** [if (globalThis.console) console.log(...args)] *)
Definition console_log (args : list string) : script unit :=
  fun w =>
    match console w with
    | Some entries =>
        (Normal tt,
         {| globals := globals w; console := Some (entries ++ [args]);
            server := server w |})
    | None => (Normal tt, w)
    end.

Definition createCheckoutWithLanguage : script CheckoutSession :=
  await_create
    {| product_cart := [{| product_id := "prod_123456"; quantity := 1 |}];
       customization :=
         Some {| force_language := Some "de"; theme := Some "system";
                 show_order_details := Some true |};
       customer :=
         Some {| email := "customer@example.com"; name := "John Doe" |} |}.

(** The result is the object [{ sessionId, checkoutUrl }]. *)
Definition checkoutFlowWithLanguageWorkaround : script (string * string) :=
  andThen createCheckoutWithLanguage (fun session =>
  andThen (console_log ["Checkout session created:"; session_id session])
    (fun _ =>
  match checkout_url session with
  | Val checkoutUrl =>
      if truthy checkoutUrl then
        andThen (inEnv (fun env =>
                   appendLanguageToCheckoutUrl env checkoutUrl "de"))
          (fun modifiedCheckoutUrl =>
        andThen (console_log ["Original URL:"; checkoutUrl]) (fun _ =>
        andThen (console_log ["Modified URL:"; modifiedCheckoutUrl]) (fun _ =>
        ret (session_id session, modifiedCheckoutUrl))))
      else throw (Error "No checkout URL returned")
  | _ => throw (Error "No checkout URL returned")
  end)).

(** The body of the [for ... of] loop, over the languages still to do; the
    entries are the objects [{ language, url }]. *)
Fixpoint multiLanguageLoop (languages : list string)
  (sessions : list (string * string)) : script (list (string * string)) :=
  match languages with
  | [] => ret sessions
  | lang :: languages' =>
      andThen
        (await_create
           {| product_cart := [{| product_id := "prod_123456"; quantity := 1 |}];
              customization :=
                Some {| force_language := Some lang; theme := None;
                        show_order_details := None |};
              customer := None |})
        (fun session =>
           match checkout_url session with
           | Val checkoutUrl =>
               if truthy checkoutUrl then
                 andThen (inEnv (fun env =>
                            appendLanguageToCheckoutUrl env checkoutUrl lang))
                   (fun url =>
                      multiLanguageLoop languages' (sessions ++ [(lang, url)]))
               else multiLanguageLoop languages' sessions
           | _ => multiLanguageLoop languages' sessions
           end)
  end.

Definition createMultiLanguageCheckouts : script (list (string * string)) :=
  multiLanguageLoop ["en"; "de"; "es"; "fr"; "it"] [].

Definition createCheckoutWithAutoLanguage (userPreferredLanguage : option string)
  : script (option string) :=
  fun w =>
    let nav := navigator (globals w) in
    let browserLang :=
      match nav with
      | Some n =>
          if truthy (Navigator.language n)
          then before "-" (Navigator.language n)
          else "en"
      | None => "en"
      end in
    let lang :=
      match userPreferredLanguage with
      | Some preferred => if truthy preferred then preferred else browserLang
      | None => browserLang
      end in
    andThen
      (await_create
         {| product_cart := [{| product_id := "prod_123456"; quantity := 1 |}];
            customization :=
              Some {| force_language := Some lang; theme := Some "system";
                      show_order_details := None |};
            customer := None |})
      (fun session =>
         match checkout_url session with
         | Val checkoutUrl =>
             if truthy checkoutUrl then
               andThen (inEnv (fun env =>
                          appendLanguageToCheckoutUrl env checkoutUrl lang))
                 (fun url => ret (Some url))
             else ret None
         | _ => ret None
         end)
      w.

End Script.

(** A client that answers every request with the same checkout URL, except
    requests for Spanish, which it answers without one; it counts the
    requests. *)
Definition demo_client : Client :=
  {| backend := nat;
     create := fun params n =>
       (Normal
          {| session_id := "cs_test_1";
             checkout_url :=
               match customization params with
               | Some {| force_language := Some "es" |} => Null
               | _ => Val "https://pay.example/c/abc"
               end |},
        S n) |}.

(** A browser with a console, talking to [demo_client]. *)
Definition demo_world : World demo_client :=
  @Build_World demo_client browser_env (Some []) 0.

(** A client that answers every request with the same session. *)
Definition steady_client : Client :=
  {| backend := unit;
     create := fun _ sv =>
       (Normal {| session_id := "cs_test_2";
                  checkout_url := Val "https://pay.example/c/abc?session=s2" |},
        sv) |}.

(** A client together with the list of the requests it has received. *)
Definition recording (c : Client) : Client :=
  {| backend := (backend c * list CheckoutSessionCreateParams)%type;
     create := fun params st =>
       let (answer, sv) := create c params (fst st) in
       (answer, (sv, snd st ++ [params])) |}.

(** The language a request forces. *)
Definition forced_language (params : CheckoutSessionCreateParams)
  : option string :=
  match customization params with
  | Some c => force_language c
  | None => None
  end.

(** The user's preference when there is a non-empty one, else what
    [BrowserUtils.getPreferredLanguage()] returns. *)
Definition chosen_language (env : Env) (preferred : option string) : string :=
  match preferred with
  | Some p => if truthy p then p else BrowserUtils.getPreferredLanguage env
  | None => BrowserUtils.getPreferredLanguage env
  end.

(** The client answers every request with a session whose checkout URL
    parses. *)
Definition answers_with_urls (api : UrlApi) (c : Client) : Prop :=
  forall params sv,
    exists session sv' checkoutUrl u,
      create c params sv = (Normal session, sv') /\
      checkout_url session = Val checkoutUrl /\
      parse api checkoutUrl = Some u.

(** The request for one language. *)
Definition language_request (lang : string) : CheckoutSessionCreateParams :=
  {| product_cart := [{| product_id := "prod_123456"; quantity := 1 |}];
     customization :=
       Some {| force_language := Some lang; theme := None;
               show_order_details := None |};
     customer := None |}.

(** The answers of the client to requests sent one after the other from
    the state [sv], and the state it ends in. *)
Fixpoint serve (c : Client) (requests : list CheckoutSessionCreateParams)
  (sv : backend c) : list (completion CheckoutSession) * backend c :=
  match requests with
  | [] => ([], sv)
  | params :: requests' =>
      let (answer, sv1) := create c params sv in
      let (answers, sv') := serve c requests' sv1 in
      (answer :: answers, sv')
  end.

(** The entries for a list of languages with the sessions obtained for
    them: a language whose session has no checkout URL, or an empty one, is
    left out; the others are listed in order, each with the URL of its own
    session as [appendLanguageToCheckoutUrl] returns it for that language. *)
Inductive entries_of (env : Env)
  : list (string * CheckoutSession) -> list (string * string) -> Prop :=
| entries_nil : entries_of env [] []
| entries_skip lang session rest out :
    truthy_nullable (checkout_url session) = false ->
    entries_of env rest out ->
    entries_of env ((lang, session) :: rest) out
| entries_keep lang session checkoutUrl url rest out :
    checkout_url session = Val checkoutUrl -> checkoutUrl <> "" ->
    appendLanguageToCheckoutUrl env checkoutUrl lang = Normal url ->
    entries_of env rest out ->
    entries_of env ((lang, session) :: rest) ((lang, url) :: out).

(** [l] is [l'] with some elements left out. *)
Inductive subsequence {A : Type} : list A -> list A -> Prop :=
| subsequence_nil : subsequence [] []
| subsequence_skip x l l' : subsequence l l' -> subsequence l (x :: l')
| subsequence_take x l l' : subsequence l l' -> subsequence (x :: l) (x :: l').

(** A client whose every request is rejected. *)
Definition offline_client : Client :=
  {| backend := unit;
     create := fun _ sv => (Throw (Error "Connection error."), sv) |}.

End Example.

(** The options [{ language: l, additionalParams: { language: l } }]. *)
Definition both_language_params (l : string) : CheckoutUrlOptions :=
  {| language := Some l;
     additionalParams := Some [("language", l)];
     preserveExisting := None |}.

(** The options [redirectToCheckout] passes on: [language ? { language } : {}]. *)
Definition redirect_options (lang : option string) : CheckoutUrlOptions :=
  if truthy_opt lang
  then {| language := lang; additionalParams := None; preserveExisting := None |}
  else no_options.

(** [s] begins with a hyphen. *)
Definition leading_hyphen (s : string) : Prop :=
  exists rest, s = String "-" rest.

(** The names of the entries of an [additionalParams] object. *)
Definition keys (params : list (string * string)) : list string :=
  map fst params.

(** The values of the parameter [key] once the language option has been
    applied, from its values [x] before. *)
Definition language_values (lang : option string) (key : string)
  (x : list string) : list string :=
  match lang with
  | Some l => if truthy l && String.eqb key "lang" then [l] else x
  | None => x
  end.

(** The values of the parameter [key] once the entries [params] have been
    merged, from its values [x] before. *)
Definition merged_values (preserve : bool) (params : list (string * string))
  (key : string) (x : list string) : list string :=
  match URLSearchParams.get key params with
  | Some v =>
      if preserve || match x with [] => true | _ :: _ => false end
      then [v] else x
  | None => x
  end.

(** Case analysis over the 256 characters. *)
Ltac each_char c := destruct c as [[] [] [] [] [] [] [] []].

(* ================================================================== *)
(** * Properties *)

(** ** Query-list operations *)

Section SearchParamsFacts.

Import URLSearchParams.
Implicit Types (l : URLSearchParams.t) (k name v : string).

Lemma get_remove_other k name l :
  k <> name -> get name (remove k l) = get name l.
Proof.
  intros Hne; induction l as [|[k' v'] l IH]; simpl; [reflexivity|].
  destruct (String.eqb_spec k' k) as [->|Hk].
  - destruct (String.eqb_spec k name); [contradiction|assumption].
  - simpl. now rewrite IH.
Qed.

Lemma getAll_remove_same k l : getAll k (remove k l) = [].
Proof.
  induction l as [|[k' v'] l IH]; simpl; [reflexivity|].
  destruct (String.eqb_spec k' k) as [->|Hk]; [assumption|].
  simpl. destruct (String.eqb_spec k' k); [contradiction|assumption].
Qed.

Lemma getAll_remove_other k name l :
  k <> name -> getAll name (remove k l) = getAll name l.
Proof.
  intros Hne; induction l as [|[k' v'] l IH]; simpl; [reflexivity|].
  destruct (String.eqb_spec k' k) as [->|Hk].
  - destruct (String.eqb_spec k name); [contradiction|assumption].
  - simpl. now rewrite IH.
Qed.

Lemma get_set_same k v l : get k (set k v l) = Some v.
Proof.
  induction l as [|[k' v'] l IH]; simpl.
  - now rewrite String.eqb_refl.
  - destruct (String.eqb_spec k' k) as [->|Hk]; simpl.
    + now rewrite String.eqb_refl.
    + destruct (String.eqb_spec k' k); [contradiction|assumption].
Qed.

Lemma getAll_set_same k v l : getAll k (set k v l) = [v].
Proof.
  induction l as [|[k' v'] l IH]; simpl.
  - now rewrite String.eqb_refl.
  - destruct (String.eqb_spec k' k) as [->|Hk]; simpl.
    + now rewrite String.eqb_refl, getAll_remove_same.
    + destruct (String.eqb_spec k' k); [contradiction|assumption].
Qed.

Lemma get_set_other k v name l :
  k <> name -> get name (set k v l) = get name l.
Proof.
  intros Hne; induction l as [|[k' v'] l IH]; simpl.
  - destruct (String.eqb_spec k name); [contradiction|reflexivity].
  - destruct (String.eqb_spec k' k) as [->|Hk]; simpl.
    + destruct (String.eqb_spec k name); [contradiction|].
      now apply get_remove_other.
    + now rewrite IH.
Qed.

Lemma getAll_set_other k v name l :
  k <> name -> getAll name (set k v l) = getAll name l.
Proof.
  intros Hne; induction l as [|[k' v'] l IH]; simpl.
  - destruct (String.eqb_spec k name); [contradiction|reflexivity].
  - destruct (String.eqb_spec k' k) as [->|Hk]; simpl.
    + destruct (String.eqb_spec k name); [contradiction|].
      now apply getAll_remove_other.
    + now rewrite IH.
Qed.

Lemma has_set_other k v name l :
  k <> name -> has name (set k v l) = has name l.
Proof.
  intros Hne; induction l as [|[k' v'] l IH]; simpl.
  - destruct (String.eqb_spec k name); [contradiction|reflexivity].
  - destruct (String.eqb_spec k' k) as [->|Hk]; simpl.
    + destruct (String.eqb_spec k name); [contradiction|]. simpl.
      clear IH. induction l as [|[k2 v2] l IH]; simpl; [reflexivity|].
      destruct (String.eqb_spec k2 k) as [->|Hk2]; simpl.
      * destruct (String.eqb_spec k name); [contradiction|assumption].
      * now rewrite IH.
    + now rewrite IH.
Qed.

Lemma get_head_getAll k l : get k l = hd_error (getAll k l).
Proof.
  induction l as [|[k' v'] l IH]; simpl; [reflexivity|].
  destruct (String.eqb_spec k' k); simpl; [reflexivity|assumption].
Qed.

End SearchParamsFacts.

(** ** The URL implementation parses back what it serialises *)

Module SimpleUrlFacts.
Import SimpleUrl.

Lemma all_app p (a b : string) : all p (a ++ b) = all p a && all p b.
Proof.
  induction a as [|c a IH]; simpl; [reflexivity|].
  now rewrite IH, andb_assoc.
Qed.

Lemma all_impl (p q : ascii -> bool) (s : string) :
  (forall c, p c = true -> q c = true) -> all p s = true -> all q s = true.
Proof.
  intros Hpq; induction s as [|c s IH]; simpl; [reflexivity|].
  intros [Hc Hs]%andb_prop. now rewrite (Hpq _ Hc), IH.
Qed.

Lemma break_sep c (a b : string) :
  all (differs c) a = true -> break c (a ++ String c b) = (a, Some b).
Proof.
  induction a as [|d a IH]; simpl.
  - now rewrite Ascii.eqb_refl.
  - unfold differs at 1. intros [Hd Ha]%andb_prop.
    apply negb_true_iff in Hd. now rewrite Hd, IH.
Qed.

Lemma break_none c (a : string) :
  all (differs c) a = true -> break c a = (a, None).
Proof.
  induction a as [|d a IH]; simpl; [reflexivity|].
  unfold differs at 1. intros [Hd Ha]%andb_prop.
  apply negb_true_iff in Hd. now rewrite Hd, IH.
Qed.

Lemma split_sep c (a b : string) :
  all (differs c) a = true -> split c (a ++ String c b) = a :: split c b.
Proof.
  induction a as [|d a IH]; simpl.
  - now rewrite Ascii.eqb_refl.
  - unfold differs at 1. intros [Hd Ha]%andb_prop.
    apply negb_true_iff in Hd. now rewrite Hd, IH.
Qed.

Lemma split_none c (a : string) :
  all (differs c) a = true -> split c a = [a].
Proof.
  induction a as [|d a IH]; simpl; [reflexivity|].
  unfold differs at 1. intros [Hd Ha]%andb_prop.
  apply negb_true_iff in Hd. now rewrite Hd, IH.
Qed.

Lemma before_sep c (a b : string) :
  all (differs c) a = true -> before c (a ++ String c b) = a.
Proof.
  induction a as [|d a IH]; simpl.
  - now rewrite Ascii.eqb_refl.
  - unfold differs at 1. intros [Hd Ha]%andb_prop.
    apply negb_true_iff in Hd. now rewrite Hd, IH.
Qed.

Lemma from_sep c (a b : string) :
  all (differs c) a = true -> from c (a ++ String c b) = String c b.
Proof.
  induction a as [|d a IH]; simpl.
  - now rewrite Ascii.eqb_refl.
  - unfold differs at 1. intros [Hd Ha]%andb_prop.
    apply negb_true_iff in Hd. now rewrite Hd, IH.
Qed.

Lemma encode_char_encoded c : all encoded_char (encode_char c) = true.
Proof. each_char c; reflexivity. Qed.

Lemma decode_encode_char c rest :
  decode (encode_char c ++ rest) = String c (decode rest).
Proof. each_char c; reflexivity. Qed.

Lemma encoded_char_differs c :
  encoded_char c = true ->
  differs "&" c = true /\ differs "=" c = true /\ differs "?" c = true
  /\ differs "#" c = true.
Proof. each_char c; cbv; intros; try discriminate; auto. Qed.

Lemma encode_encoded s : all encoded_char (encode s) = true.
Proof.
  induction s as [|c s IH]; simpl; [reflexivity|].
  now rewrite all_app, encode_char_encoded, IH.
Qed.

Lemma encode_differs c s :
  (forall d, encoded_char d = true -> differs c d = true) ->
  all (differs c) (encode s) = true.
Proof. intros H. apply all_impl with (1 := H), encode_encoded. Qed.

Lemma decode_encode s : decode (encode s) = s.
Proof.
  induction s as [|c s IH]; simpl; [reflexivity|].
  now rewrite decode_encode_char, IH.
Qed.

Lemma append_assoc (a b c : string) : ((a ++ b) ++ c = a ++ (b ++ c))%string.
Proof. induction a as [|x a IH]; simpl; [reflexivity|now rewrite IH]. Qed.

Lemma parse_serialize_pair p : parse_pair (serialize_pair p) = p.
Proof.
  destruct p as [k v]. unfold parse_pair, serialize_pair; simpl.
  rewrite break_sep.
  - simpl. now rewrite !decode_encode.
  - apply encode_differs. intros d Hd. apply encoded_char_differs, Hd.
Qed.

Lemma serialize_pair_differs p : all (differs "&") (serialize_pair p) = true.
Proof.
  assert (H : forall s, all (differs "&") (encode s) = true).
  { intros s. apply encode_differs. intros d Hd. apply encoded_char_differs, Hd. }
  unfold serialize_pair. rewrite all_app, H. simpl. now rewrite H.
Qed.

Lemma serialize_pair_truthy p : truthy (serialize_pair p) = true.
Proof.
  unfold serialize_pair. destruct (encode (fst p)); reflexivity.
Qed.

Lemma parse_serialize_query q : parse_query (serialize_query q) = q.
Proof.
  unfold parse_query.
  induction q as [|p q IH]; [reflexivity|].
  destruct q as [|p' q].
  - cbn [serialize_query]. rewrite split_none by apply serialize_pair_differs.
    cbn [filter]. rewrite serialize_pair_truthy. cbn [map].
    now rewrite parse_serialize_pair.
  - change (serialize_query (p :: p' :: q))
      with (serialize_pair p ++ String "&" (serialize_query (p' :: q)))%string.
    rewrite split_sep by apply serialize_pair_differs.
    cbn [filter]. rewrite serialize_pair_truthy. cbn [map].
    now rewrite parse_serialize_pair, IH.
Qed.

Lemma serialize_query_differs c q :
  (forall d, encoded_char d = true -> differs c d = true) ->
  differs c "=" = true -> differs c "&" = true ->
  all (differs c) (serialize_query q) = true.
Proof.
  intros H Heq Hamp.
  assert (Hp : forall p, all (differs c) (serialize_pair p) = true).
  { intros p. unfold serialize_pair.
    rewrite all_app, encode_differs by assumption. simpl.
    now rewrite Heq, encode_differs. }
  induction q as [|p q IH]; [reflexivity|].
  destruct q as [|p' q]; [apply Hp|].
  change (serialize_query (p :: p' :: q))
    with (serialize_pair p ++ String "&" (serialize_query (p' :: q)))%string.
  rewrite all_app, Hp. cbn [all andb]. now rewrite Hamp, IH.
Qed.

Lemma append_empty_r (a : string) : (a ++ "")%string = a.
Proof. induction a as [|x a IH]; simpl; [reflexivity|now rewrite IH]. Qed.

Lemma pred_differs (p : ascii -> bool) d :
  p d = false -> forall x, p x = true -> differs d x = true.
Proof.
  intros Hd x Hx. unfold differs. apply negb_true_iff.
  destruct (Ascii.eqb_spec x d) as [->|]; [congruence|reflexivity].
Qed.

Lemma all_differs (p : ascii -> bool) d s :
  p d = false -> all p s = true -> all (differs d) s = true.
Proof. intros Hd. apply all_impl, pred_differs, Hd. Qed.

Lemma toString_parts u :
  toString u
  = ((base_part (scheme u) (host u) (pathname u) ++ query_part (query u))
     ++ hash_part (hash u))%string.
Proof.
  destruct u as [sch h p q fr]; unfold toString, base_part;
    cbn [scheme host pathname query hash].
  rewrite !append_assoc. f_equal. cbn [append]. do 3 f_equal.
  rewrite !append_assoc. reflexivity.
Qed.

Lemma base_part_differs d sch h p :
  all is_lower sch = true -> all host_char h = true -> all path_char p = true ->
  is_lower d = false -> host_char d = false -> path_char d = false ->
  differs d ":" = true -> differs d "/" = true ->
  all (differs d) (base_part sch h p) = true.
Proof.
  intros Hs Hh Hp Hd1 Hd2 Hd3 Hc Hsl. unfold base_part.
  rewrite all_app. cbn [all]. rewrite Hc, Hsl, all_app.
  repeat (apply andb_true_intro; split); trivial;
    first [ now apply all_differs with (p := is_lower)
          | now apply all_differs with (p := host_char)
          | now apply all_differs with (p := path_char) ].
Qed.

Lemma query_part_differs q : all (differs "#") (query_part q) = true.
Proof.
  destruct q as [|p q]; [reflexivity|].
  cbn [query_part all]. 
  rewrite serialize_query_differs; try reflexivity.
  apply pred_differs; reflexivity.
Qed.

Lemma parse_toString u : valid u = true -> parse (toString u) = Some u.
Proof.
  intros Hv. rewrite toString_parts. unfold parse.
  pose proof Hv as Hv'. unfold valid in Hv'.
  apply andb_prop in Hv' as [[Hs Hh]%andb_prop Hp].
  apply andb_prop in Hs as [_ Hs]. apply andb_prop in Hh as [_ Hh].
  apply andb_prop in Hp as [Hp0 Hp].
  assert (Hfrag :
    break "#" ((base_part (scheme u) (host u) (pathname u)
                ++ query_part (query u)) ++ hash_part (hash u))
    = ((base_part (scheme u) (host u) (pathname u)
        ++ query_part (query u))%string, hash u)).
  { assert (all (differs "#")
              (base_part (scheme u) (host u) (pathname u) ++ query_part (query u))
            = true) as Hall.
    { rewrite all_app, query_part_differs, andb_true_r.
      apply base_part_differs; auto. }
    destruct (hash u) as [f|]; cbn [hash_part].
    - now apply break_sep.
    - rewrite append_empty_r. now apply break_none. }
  rewrite Hfrag.
  assert (Hquery :
    break "?" (base_part (scheme u) (host u) (pathname u) ++ query_part (query u))
    = (base_part (scheme u) (host u) (pathname u),
       match query u with [] => None | _ :: _ => Some (serialize_query (query u)) end)).
  { assert (all (differs "?") (base_part (scheme u) (host u) (pathname u)) = true)
      as Hall.
    { apply base_part_differs; auto. }
    destruct (query u) as [|p q]; cbn [query_part].
    - rewrite append_empty_r. now apply break_none.
    - now apply break_sep. }
  rewrite Hquery.
  unfold base_part at 1.
  rewrite break_sep by (apply all_differs with (2 := Hs); reflexivity).
  destruct (pathname u) as [|p0 p] eqn:Epath; [discriminate|].
  cbn [startsWith] in Hp0. apply andb_prop in Hp0 as [Hp0 _].
  apply Ascii.eqb_eq in Hp0. subst p0.
  rewrite before_sep, from_sep
    by (apply all_differs with (2 := Hh); reflexivity).
  rewrite <- Epath.
  assert (Hq : match
                 match query u with
                 | [] => None
                 | _ :: _ => Some (serialize_query (query u))
                 end
               with
               | Some q => parse_query q
               | None => []
               end = query u).
  { destruct (query u) eqn:E; [reflexivity|]. apply parse_serialize_query. }
  rewrite Hq.
  replace {| scheme := scheme u; host := host u; pathname := pathname u;
             query := query u; hash := hash u |} with u by now destruct u.
  now rewrite Hv.
Qed.

Lemma parse_valid s u : parse s = Some u -> valid u = true.
Proof.
  unfold parse. destruct (break "#" s) as [s1 fr].
  destruct (break "?" s1) as [b qs]. destruct (break ":" b) as [sch rest].
  destruct rest as [r|]; [|discriminate].
  destruct r as [|c1 r]; [discriminate|].
  destruct c1 as [[] [] [] [] [] [] [] []]; try discriminate.
  destruct r as [|c2 r]; [discriminate|].
  destruct c2 as [[] [] [] [] [] [] [] []]; try discriminate.
  match goal with |- context [valid ?x] => destruct (valid x) eqn:E end;
    [|discriminate].
  now intros [= <-].
Qed.

End SimpleUrlFacts.

(** The implementation satisfies the laws of the URL primitive. *)
Lemma SimpleUrl_laws : UrlLaws SimpleUrl.api.
Proof.
  split.
  - reflexivity.
  - exact SimpleUrlFacts.parse_valid.
  - intros q u Hu. exact Hu.
  - reflexivity.
  - reflexivity.
  - reflexivity.
  - reflexivity.
  - exact SimpleUrlFacts.parse_toString.
Qed.

(* ================================================================== *)
(** ** The URL object under the module's updates *)

Section UrlFacts.

Variable api : UrlApi.
Hypothesis laws : UrlLaws api.

Lemma truthy_nonempty s : truthy s = true <-> s <> "".
Proof. destruct s; simpl; split; congruence. Qed.

Lemma searchParams_of_set k v (u : url api) :
  searchParams api (searchParams_set api k v u)
  = URLSearchParams.set k v (searchParams api u).
Proof. unfold searchParams_set. apply (with_searchParams laws). Qed.

Lemma searchParams_of_language lang (u : url api) :
  searchParams api (apply_language api lang u)
  = language_applied lang (searchParams api u).
Proof.
  destruct lang as [l|]; simpl; [|reflexivity].
  destruct (truthy l); [apply searchParams_of_set|reflexivity].
Qed.

Lemma searchParams_of_entry preserve (u : url api) entry :
  searchParams api (merge_entry api preserve u entry)
  = merge_pair preserve (searchParams api u) entry.
Proof.
  destruct entry as [k v]; unfold merge_entry, merge_pair, searchParams_has.
  destruct (preserve || negb _); [apply searchParams_of_set|reflexivity].
Qed.

Lemma searchParams_of_entries preserve params (u : url api) :
  searchParams api (fold_left (merge_entry api preserve) params u)
  = fold_left (merge_pair preserve) params (searchParams api u).
Proof.
  revert u; induction params as [|e params IH]; intros u; simpl; [reflexivity|].
  now rewrite IH, searchParams_of_entry.
Qed.

Lemma same_base_refl u : same_base api u u.
Proof. repeat split; auto. Qed.

Lemma same_base_trans u1 u2 u3 :
  same_base api u1 u2 -> same_base api u2 u3 -> same_base api u1 u3.
Proof.
  intros (Hw & Hs & Hh & Hp) (Hw' & Hs' & Hh' & Hp').
  repeat split; [auto|congruence..].
Qed.

Lemma same_base_set k v u : same_base api u (searchParams_set api k v u).
Proof.
  unfold searchParams_set. split; [apply (with_wf laws)|].
  now rewrite (with_scheme laws), (with_host laws), (with_pathname laws).
Qed.

Lemma same_base_language lang u :
  same_base api u (apply_language api lang u).
Proof.
  destruct lang as [l|]; simpl; [|apply same_base_refl].
  destruct (truthy l); [apply same_base_set|apply same_base_refl].
Qed.

Lemma same_base_entries preserve params u :
  same_base api u (fold_left (merge_entry api preserve) params u).
Proof.
  revert u; induction params as [|[k v] params IH]; intros u; simpl;
    [apply same_base_refl|].
  eapply same_base_trans; [|apply IH].
  destruct (preserve || negb _); [apply same_base_set|apply same_base_refl].
Qed.

(** On a string that parses, [enhanceCheckoutUrl] returns the serialisation
    of a URL object that parses back, with the query merged and the rest of
    the URL as it was. *)
Lemma enhance_parsed env s u options :
  URL env = Some api -> parse api s = Some u ->
  exists u',
    enhanceCheckoutUrl env (Val s) options = Normal (Some (toString api u')) /\
    parse api (toString api u') = Some u' /\
    searchParams api u'
    = fold_left (merge_pair (default true (preserveExisting options)))
        (default [] (additionalParams options))
        (language_applied (language options) (searchParams api u)) /\
    scheme api u' = scheme api u /\ host api u' = host api u /\
    pathname api u' = pathname api u.
Proof.
  intros Henv Hparse.
  assert (Hs : truthy s = true).
  { apply truthy_nonempty. intros ->. rewrite (parse_empty laws) in Hparse.
    discriminate. }
  set (preserve := default true (preserveExisting options)).
  set (params := default [] (additionalParams options)).
  exists (fold_left (merge_entry api preserve) params
            (apply_language api (language options) u)).
  destruct (same_base_trans (same_base_language (language options) u)
              (same_base_entries preserve params _)) as (Hwf & Hsch & Hh & Hp).
  repeat split; trivial.
  - unfold enhanceCheckoutUrl. rewrite Hs, Henv. simpl.
    unfold new_URL. now rewrite Hparse.
  - apply (parse_toString laws), Hwf, (parse_wf laws) with (1 := Hparse).
  - now rewrite searchParams_of_entries, searchParams_of_language.
Qed.

Lemma extract_parsed env s u :
  URL env = Some api -> parse api s = Some u ->
  extractLanguageFromUrl env s
  = Normal (or_else (URLSearchParams.get "lang" (searchParams api u))
              (or_else (URLSearchParams.get "language" (searchParams api u))
                 (URLSearchParams.get "locale" (searchParams api u)))).
Proof.
  intros Henv Hparse. unfold extractLanguageFromUrl, new_URL.
  now rewrite Henv, Hparse.
Qed.

End UrlFacts.

Lemma extract_unparsed env s :
  fails_to_parse env s -> extractLanguageFromUrl env s = Normal None.
Proof.
  unfold fails_to_parse, extractLanguageFromUrl, new_URL.
  destruct (URL env) as [api|]; [|reflexivity].
  now intros ->.
Qed.

Lemma enhance_unparsed env s options :
  s <> "" -> fails_to_parse env s ->
  enhanceCheckoutUrl env (Val s) options = Normal (Some s).
Proof.
  intros Hs%truthy_nonempty.
  unfold fails_to_parse, enhanceCheckoutUrl, new_URL. rewrite Hs. simpl.
  destruct (URL env) as [api|]; [|reflexivity].
  now intros ->.
Qed.

Lemma enhance_returns env input options :
  returns (enhanceCheckoutUrl env input options).
Proof.
  unfold returns, enhanceCheckoutUrl, new_URL.
  destruct input as [| |s]; [now eexists..|].
  destruct (truthy s); simpl; [|now eexists].
  destruct (URL env) as [api|]; [|now eexists].
  destruct (parse api s); simpl; now eexists.
Qed.

(* ================================================================== *)
(** ** enhanceCheckoutUrl *)

(** C1 (amended).  For every string [url] that parses as a URL and every
    non-empty [lang], [enhanceCheckoutUrl(url, {language: lang})] returns a
    URL string in which the parameter [lang] has the single value [lang],
    whatever it was before, and whose scheme, host and path are those of
    [url].  For the empty language the guard [if (language)] skips the
    update: the result is a URL string with the query parameters of [url],
    its [lang] parameter as it was, and the same scheme, host and path. *)
Theorem enhanceCheckoutUrl_sets_language env api url u lang :
  URL env = Some api -> UrlLaws api -> parse api url = Some u ->
  (lang <> "" ->
   carries_language api u lang
     (enhanceCheckoutUrl env (Val url) (language_only lang))) /\
  (lang = "" ->
   exists r u',
     enhanceCheckoutUrl env (Val url) (language_only lang) = Normal (Some r) /\
     parse api r = Some u' /\
     URLSearchParams.getAll "lang" (searchParams api u')
     = URLSearchParams.getAll "lang" (searchParams api u) /\
     searchParams api u' = searchParams api u /\
     scheme api u' = scheme api u /\ host api u' = host api u /\
     pathname api u' = pathname api u).
Proof.
  intros Henv laws Hparse.
  destruct (enhance_parsed laws env url (language_only lang) Henv Hparse)
    as (u' & Hres & Hback & Hq & Hs & Hh & Hp).
  simpl in Hq. split.
  - intros Hlang%truthy_nonempty. rewrite Hlang in Hq.
    exists (toString api u'), u'. repeat split; trivial.
    + unfold searchParams_get. rewrite Hq. apply get_set_same.
    + rewrite Hq. apply getAll_set_same.
  - intros ->. simpl in Hq.
    exists (toString api u'), u'. rewrite Hq. repeat split; trivial.
Qed.

Lemma enhanceCheckoutUrl_sets_language_witness :
  carries_language SimpleUrl.api
    {| SimpleUrl.scheme := "https"; SimpleUrl.host := "pay.example";
       SimpleUrl.pathname := "/c/abc"; SimpleUrl.query := [("lang", "en")];
       SimpleUrl.hash := None |}
    "de"
    (enhanceCheckoutUrl browser_env (Val "https://pay.example/c/abc?lang=en")
       (language_only "de")).
Proof.
  apply (proj1 (@enhanceCheckoutUrl_sets_language browser_env SimpleUrl.api
                  "https://pay.example/c/abc?lang=en"
                  {| SimpleUrl.scheme := "https"; SimpleUrl.host := "pay.example";
                     SimpleUrl.pathname := "/c/abc";
                     SimpleUrl.query := [("lang", "en")];
                     SimpleUrl.hash := None |} "de" eq_refl SimpleUrl_laws
                  eq_refl)).
  discriminate.
Defined.

(** C1 as stated fails for the empty language string: the guard
    [if (language)] skips it, so an existing [lang=en] stays. *)
Lemma enhanceCheckoutUrl_empty_language_counterexample :
  exists u,
    parse SimpleUrl.api "https://pay.example/c?lang=en" = Some u /\
    enhanceCheckoutUrl browser_env (Val "https://pay.example/c?lang=en")
      (language_only "")
    = Normal (Some "https://pay.example/c?lang=en") /\
    ~ carries_language SimpleUrl.api u ""
        (enhanceCheckoutUrl browser_env (Val "https://pay.example/c?lang=en")
           (language_only "")).
Proof.
  eexists. split; [vm_compute; reflexivity|]. split; [vm_compute; reflexivity|].
  intros (r & u' & Hres & Hback & Hget & _).
  vm_compute in Hres. injection Hres as <-.
  vm_compute in Hback. injection Hback as <-.
  vm_compute in Hget. discriminate.
Qed.

(** C2 (amended).  [enhanceCheckoutUrl] never throws; it returns null for
    null, undefined and the empty string, and returns the input itself for
    every non-empty string that does not parse as a URL (or when the
    environment has no URL parser). *)
Theorem enhanceCheckoutUrl_fail_soft env input options :
  returns (enhanceCheckoutUrl env input options) /\
  (absent input \/ input = Val "" ->
   enhanceCheckoutUrl env input options = Normal None) /\
  (forall s, input = Val s -> s <> "" -> fails_to_parse env s ->
   enhanceCheckoutUrl env input options = Normal (Some s)).
Proof.
  split; [apply enhance_returns|]. split.
  - intros [[-> | ->] | ->]; reflexivity.
  - intros s -> Hs Hfail. now apply enhance_unparsed.
Qed.

Lemma enhanceCheckoutUrl_fail_soft_witness :
  enhanceCheckoutUrl browser_env (Val "not a url") no_options
  = Normal (Some "not a url").
Proof.
  apply (proj2 (proj2 (enhanceCheckoutUrl_fail_soft browser_env
                         (Val "not a url") no_options)) "not a url").
  - reflexivity.
  - discriminate.
  - vm_compute; reflexivity.
Defined.

(** C2 as stated fails for the empty string: it does not parse as a URL,
    yet the result is null, not the input. *)
Lemma enhanceCheckoutUrl_empty_input_counterexample :
  fails_to_parse bare_env "" /\
  fails_to_parse browser_env "" /\
  enhanceCheckoutUrl bare_env (Val "") no_options = Normal None /\
  enhanceCheckoutUrl browser_env (Val "") no_options = Normal None /\
  ~ fail_soft bare_env (Val "") (enhanceCheckoutUrl bare_env (Val "") no_options).
Proof.
  repeat split.
  intros (_ & _ & H). specialize (H "" eq_refl I). discriminate.
Qed.

(* ================================================================== *)
(** ** extractLanguageFromUrl *)

Lemma or_else_nonempty v b : v <> "" -> or_else (Some v) b = Some v.
Proof. intros Hv%truthy_nonempty. unfold or_else; simpl. now rewrite Hv. Qed.

Lemma or_else_blank a b : blank a -> or_else a b = b.
Proof. now intros [-> | ->]. Qed.

(** C3 (amended).  [extractLanguageFromUrl] returns null when the string
    does not parse.  When it parses, it returns the value of [lang] if that
    is present and non-empty; otherwise the value of [language] if that is
    present and non-empty; otherwise whatever the lookup of [locale] gives
    (its value, or null when it is missing); in particular null when none
    of the three is present. *)
Theorem extractLanguageFromUrl_priority env s :
  (fails_to_parse env s -> extractLanguageFromUrl env s = Normal None) /\
  (forall api u, URL env = Some api -> parse api s = Some u ->
     let q := searchParams api u in
     let result := extractLanguageFromUrl env s in
     (forall v, URLSearchParams.get "lang" q = Some v -> v <> "" ->
        result = Normal (Some v)) /\
     (forall v, blank (URLSearchParams.get "lang" q) ->
        URLSearchParams.get "language" q = Some v -> v <> "" ->
        result = Normal (Some v)) /\
     (blank (URLSearchParams.get "lang" q) ->
      blank (URLSearchParams.get "language" q) ->
      result = Normal (URLSearchParams.get "locale" q)) /\
     (URLSearchParams.get "lang" q = None ->
      URLSearchParams.get "language" q = None ->
      URLSearchParams.get "locale" q = None ->
      result = Normal None)).
Proof.
  split; [apply extract_unparsed|].
  intros api u Henv Hparse q result. subst result.
  rewrite (extract_parsed env s Henv Hparse). fold q.
  repeat split.
  - intros v -> Hv. now rewrite or_else_nonempty.
  - intros v Hl -> Hv. now rewrite (or_else_blank _ Hl), or_else_nonempty.
  - intros Hl Hla. now rewrite (or_else_blank _ Hl), (or_else_blank _ Hla).
  - now intros -> -> ->.
Qed.

Lemma extractLanguageFromUrl_priority_witness :
  extractLanguageFromUrl browser_env "https://pay.example/c?language=es&locale=fr"
  = Normal (Some "es").
Proof.
  refine (proj1 (proj2 (proj2 (extractLanguageFromUrl_priority browser_env
            "https://pay.example/c?language=es&locale=fr") SimpleUrl.api
            {| SimpleUrl.scheme := "https"; SimpleUrl.host := "pay.example";
               SimpleUrl.pathname := "/c";
               SimpleUrl.query := [("language", "es"); ("locale", "fr")];
               SimpleUrl.hash := None |} _ _)) "es" _ _ _).
  - reflexivity.
  - vm_compute; reflexivity.
  - left; reflexivity.
  - reflexivity.
  - discriminate.
Defined.

(** C3 as stated fails when [lang] is present with an empty value: the
    value of [lang] is found, yet the value of [language] is returned. *)
Lemma extractLanguageFromUrl_empty_lang_counterexample :
  extractLanguageFromUrl browser_env "https://pay.example/c?lang=&language=es"
  = Normal (Some "es") /\
  ~ extracts_first_present browser_env "https://pay.example/c?lang=&language=es"
      (extractLanguageFromUrl browser_env
         "https://pay.example/c?lang=&language=es").
Proof.
  split; [vm_compute; reflexivity|].
  intros [_ H].
  specialize (H SimpleUrl.api
    {| SimpleUrl.scheme := "https"; SimpleUrl.host := "pay.example";
       SimpleUrl.pathname := "/c";
       SimpleUrl.query := [("lang", ""); ("language", "es")];
       SimpleUrl.hash := None |} eq_refl).
  assert (Hparse : parse SimpleUrl.api "https://pay.example/c?lang=&language=es"
                   = Some {| SimpleUrl.scheme := "https";
                             SimpleUrl.host := "pay.example";
                             SimpleUrl.pathname := "/c";
                             SimpleUrl.query := [("lang", ""); ("language", "es")];
                             SimpleUrl.hash := None |})
    by (vm_compute; reflexivity).
  specialize (H Hparse). vm_compute in H. discriminate.
Qed.

(** C10 (amended).  A candidate parameter whose value is the empty string
    is passed over like a missing one: with [lang] missing or empty the
    function goes on to [language], and with that missing or empty too, to
    [locale].  When no candidate has a non-empty value, the result is the
    lookup of [locale]: null if [locale] is missing, the empty string if
    [locale] is present and empty. *)
Theorem extractLanguageFromUrl_empty_value env api s u :
  URL env = Some api -> parse api s = Some u ->
  let q := searchParams api u in
  let result := extractLanguageFromUrl env s in
  blank (URLSearchParams.get "lang" q) ->
  (forall v, URLSearchParams.get "language" q = Some v -> v <> "" ->
     result = Normal (Some v)) /\
  (blank (URLSearchParams.get "language" q) ->
     (forall v, URLSearchParams.get "locale" q = Some v -> v <> "" ->
        result = Normal (Some v)) /\
     (URLSearchParams.get "locale" q = None -> result = Normal None) /\
     (URLSearchParams.get "locale" q = Some "" -> result = Normal (Some ""))).
Proof.
  intros Henv Hparse q result Hl. subst result.
  rewrite (extract_parsed env s Henv Hparse). fold q.
  rewrite (or_else_blank _ Hl). split.
  - intros v -> Hv. now rewrite or_else_nonempty.
  - intros Hla. rewrite (or_else_blank _ Hla).
    repeat split.
    + now intros v ->.
    + now intros ->.
    + now intros ->.
Qed.

Lemma extractLanguageFromUrl_empty_value_witness :
  extractLanguageFromUrl browser_env "https://pay.example/c?lang=&locale=fr"
  = Normal (Some "fr").
Proof.
  refine (proj1 (proj2 (@extractLanguageFromUrl_empty_value browser_env
            SimpleUrl.api "https://pay.example/c?lang=&locale=fr"
            {| SimpleUrl.scheme := "https"; SimpleUrl.host := "pay.example";
               SimpleUrl.pathname := "/c";
               SimpleUrl.query := [("lang", ""); ("locale", "fr")];
               SimpleUrl.hash := None |} _ _ _) _) "fr" _ _).
  - reflexivity.
  - vm_compute; reflexivity.
  - right; reflexivity.
  - left; reflexivity.
  - reflexivity.
  - discriminate.
Defined.

(** C10 as stated fails when [locale] is present and empty: every present
    candidate is empty, yet the result is the empty string, not null. *)
Lemma extractLanguageFromUrl_empty_locale_counterexample :
  parse SimpleUrl.api "https://pay.example/c?lang=&locale="
  = Some {| SimpleUrl.scheme := "https"; SimpleUrl.host := "pay.example";
            SimpleUrl.pathname := "/c";
            SimpleUrl.query := [("lang", ""); ("locale", "")];
            SimpleUrl.hash := None |} /\
  extractLanguageFromUrl browser_env "https://pay.example/c?lang=&locale="
  = Normal (Some "") /\
  ~ null_when_all_blank [("lang", ""); ("locale", "")]
      (extractLanguageFromUrl browser_env "https://pay.example/c?lang=&locale=").
Proof.
  split; [vm_compute; reflexivity|]. split; [vm_compute; reflexivity|].
  intros H. unfold null_when_all_blank in H.
  assert (Hres : extractLanguageFromUrl browser_env
                   "https://pay.example/c?lang=&locale=" = Normal None).
  { apply H; [right|left|right]; reflexivity. }
  vm_compute in Hres. discriminate.
Qed.

(* ================================================================== *)
(** ** Merging additionalParams *)

Section MergeFacts.

Import URLSearchParams.
Variable preserve : bool.

Lemma merge_pair_other q k v name :
  k <> name ->
  getAll name (merge_pair preserve q (k, v)) = getAll name q /\
  has name (merge_pair preserve q (k, v)) = has name q.
Proof.
  intros Hne. unfold merge_pair.
  destruct (preserve || negb (has k q)); [|now split].
  split; [now apply getAll_set_other|now apply has_set_other].
Qed.

Lemma merge_entries_other params q name :
  ~ In name (map fst params) ->
  getAll name (fold_left (merge_pair preserve) params q) = getAll name q.
Proof.
  revert q; induction params as [|[k v] params IH]; intros q Hnot; simpl;
    [reflexivity|].
  simpl in Hnot. rewrite IH by tauto.
  apply merge_pair_other. tauto.
Qed.

Lemma merge_pair_same q k v :
  getAll k (merge_pair preserve q (k, v))
  = if preserve || negb (has k q) then [v] else getAll k q.
Proof.
  unfold merge_pair. destruct (preserve || negb (has k q));
    [apply getAll_set_same|reflexivity].
Qed.

Lemma merge_entries_in params q k v :
  NoDup (map fst params) -> In (k, v) params ->
  getAll k (fold_left (merge_pair preserve) params q)
  = if preserve || negb (has k q) then [v] else getAll k q.
Proof.
  revert q; induction params as [|[k' v'] params IH]; intros q Hnd Hin;
    [contradiction|].
  simpl in Hnd. inversion Hnd as [|? ? Hnotin Hnd']; subst.
  cbn [fold_left]. destruct Hin as [[= -> ->] | Hin].
  - rewrite merge_entries_other by assumption. apply merge_pair_same.
  - assert (Hne : k' <> k).
    { intros ->. apply Hnotin. now apply (in_map fst) in Hin. }
    rewrite IH by assumption.
    destruct (@merge_pair_other q k' v' k Hne) as [-> ->]. reflexivity.
Qed.

End MergeFacts.

Lemma language_applied_other lang q key :
  truthy_opt lang = false \/ key <> "lang" ->
  URLSearchParams.getAll key (language_applied lang q)
  = URLSearchParams.getAll key q /\
  URLSearchParams.has key (language_applied lang q) = URLSearchParams.has key q.
Proof.
  destruct lang as [l|]; simpl; [|now split].
  destruct (truthy l); [|now split].
  intros [|Hne]; [discriminate|].
  split; [apply getAll_set_other|apply has_set_other]; congruence.
Qed.

(** C4 (amended).  For every string that parses as a URL and every entry
    [(key, value)] of [additionalParams]: with [preserveExisting] true (the
    default) the result has [key] set to [value], whether or not [key]
    existed; with [preserveExisting] false, a parameter [key] that exists
    once the language option has been applied is left untouched, and a key
    not present at that point is added with [value].  When no language is
    passed, or [key] is not [lang], this holds with respect to the input
    URL itself. *)
Theorem enhanceCheckoutUrl_merges_params env api url u options key value :
  URL env = Some api -> UrlLaws api -> parse api url = Some u ->
  NoDup (map fst (default [] (additionalParams options))) ->
  In (key, value) (default [] (additionalParams options)) ->
  merged_against api
    (language_applied (language options) (searchParams api u))
    (default true (preserveExisting options)) key value
    (enhanceCheckoutUrl env (Val url) options) /\
  (truthy_opt (language options) = false \/ key <> "lang" ->
   merged_against api (searchParams api u)
     (default true (preserveExisting options)) key value
     (enhanceCheckoutUrl env (Val url) options)).
Proof.
  intros Henv laws Hparse Hnd Hin.
  destruct (enhance_parsed laws env url options Henv Hparse)
    as (u' & Hres & Hback & Hq & _).
  pose proof (@merge_entries_in (default true (preserveExisting options)) _
                (language_applied (language options) (searchParams api u))
                _ _ Hnd Hin) as Hall.
  rewrite <- Hq in Hall.
  assert (Hfirst : merged_against api
            (language_applied (language options) (searchParams api u))
            (default true (preserveExisting options)) key value
            (enhanceCheckoutUrl env (Val url) options)).
  { exists (toString api u'), u'. repeat split; trivial.
    - intros Hp. now rewrite Hp in Hall.
    - intros Hp Hhas. now rewrite Hp, Hhas in Hall.
    - intros Hp Hhas. now rewrite Hp, Hhas in Hall. }
  split; [exact Hfirst|].
  intros Hother.
  destruct (@language_applied_other (language options) (searchParams api u)
              key Hother) as [HgetAll Hhas].
  destruct Hfirst as (r & u'' & H1 & H2 & H3 & H4 & H5).
  exists r, u''. rewrite <- HgetAll, <- Hhas. repeat split; assumption.
Qed.

Lemma enhanceCheckoutUrl_merges_params_witness :
  merged_against SimpleUrl.api [("foo", "bar")] false "foo" "baz"
    (enhanceCheckoutUrl browser_env (Val "https://pay.example/c?foo=bar")
       {| language := None; additionalParams := Some [("foo", "baz")];
          preserveExisting := Some false |}).
Proof.
  refine (proj2 (@enhanceCheckoutUrl_merges_params browser_env SimpleUrl.api
            "https://pay.example/c?foo=bar"
            {| SimpleUrl.scheme := "https"; SimpleUrl.host := "pay.example";
               SimpleUrl.pathname := "/c"; SimpleUrl.query := [("foo", "bar")];
               SimpleUrl.hash := None |}
            {| language := None; additionalParams := Some [("foo", "baz")];
               preserveExisting := Some false |}
            "foo" "baz" _ _ _ _ _) _).
  - reflexivity.
  - exact SimpleUrl_laws.
  - vm_compute; reflexivity.
  - simpl. constructor; [intros []|constructor].
  - simpl. left; reflexivity.
  - left; reflexivity.
Defined.

(** C4 as stated fails for the key [lang] when a language is passed too:
    with [preserveExisting] false the existing [lang=en] does not stay
    untouched, it becomes the language. *)
Lemma enhanceCheckoutUrl_lang_param_counterexample :
  parse SimpleUrl.api "https://pay.example/c?lang=en"
  = Some {| SimpleUrl.scheme := "https"; SimpleUrl.host := "pay.example";
            SimpleUrl.pathname := "/c"; SimpleUrl.query := [("lang", "en")];
            SimpleUrl.hash := None |} /\
  enhanceCheckoutUrl browser_env (Val "https://pay.example/c?lang=en")
    {| language := Some "de"; additionalParams := Some [("lang", "fr")];
       preserveExisting := Some false |}
  = Normal (Some "https://pay.example/c?lang=de") /\
  ~ merged_against SimpleUrl.api [("lang", "en")] false "lang" "fr"
      (enhanceCheckoutUrl browser_env (Val "https://pay.example/c?lang=en")
         {| language := Some "de"; additionalParams := Some [("lang", "fr")];
            preserveExisting := Some false |}).
Proof.
  split; [vm_compute; reflexivity|]. split; [vm_compute; reflexivity|].
  intros (r & u' & Hres & Hback & _ & Hkeep & _).
  vm_compute in Hres. injection Hres as <-.
  vm_compute in Hback. injection Hback as <-.
  specialize (Hkeep eq_refl eq_refl). vm_compute in Hkeep. discriminate.
Qed.

(* ================================================================== *)
(** ** Round trip and the iframe helper *)

(** C5.  For every string [url] that parses as a URL,
    [extractLanguageFromUrl] applied to the result of
    [enhanceCheckoutUrl(url, {language: "de"})] returns ["de"]. *)
Theorem enhance_extract_roundtrip env api url u :
  URL env = Some api -> UrlLaws api -> parse api url = Some u ->
  exists r,
    enhanceCheckoutUrl env (Val url) (language_only "de") = Normal (Some r) /\
    extractLanguageFromUrl env r = Normal (Some "de").
Proof.
  intros Henv laws Hparse.
  destruct (enhance_parsed laws env url (language_only "de") Henv Hparse)
    as (u' & Hres & Hback & Hq & _).
  exists (toString api u'). split; [exact Hres|].
  rewrite (extract_parsed env _ Henv Hback), Hq. simpl.
  rewrite get_set_same. reflexivity.
Qed.

Lemma enhance_extract_roundtrip_witness :
  exists r,
    enhanceCheckoutUrl browser_env
      (Val "https://pay.example/c/abc?locale=fr&lang=en#pay")
      (language_only "de") = Normal (Some r) /\
    extractLanguageFromUrl browser_env r = Normal (Some "de").
Proof.
  apply (@enhance_extract_roundtrip browser_env SimpleUrl.api
           "https://pay.example/c/abc?locale=fr&lang=en#pay"
           {| SimpleUrl.scheme := "https"; SimpleUrl.host := "pay.example";
              SimpleUrl.pathname := "/c/abc";
              SimpleUrl.query := [("locale", "fr"); ("lang", "en")];
              SimpleUrl.hash := Some "pay" |}).
  - reflexivity.
  - exact SimpleUrl_laws.
  - vm_compute; reflexivity.
Defined.

(** C7 (amended).  For every string that parses as a URL,
    [getIframeSafeCheckoutUrl] returns a URL string with [embedded=true],
    with [lang] set to the language when a non-empty one is passed, and
    with the scheme, host and path of the input.  For null and undefined it
    returns null, and for a string that does not parse it returns what
    [enhanceCheckoutUrl] returns: the string itself, or null if the string
    is empty.  It never throws. *)
Theorem getIframeSafeCheckoutUrl_embedded env input lang :
  (forall api url u,
     input = Val url -> URL env = Some api -> UrlLaws api ->
     parse api url = Some u ->
     exists r u',
       getIframeSafeCheckoutUrl env input lang = Normal (Some r) /\
       parse api r = Some u' /\
       searchParams_get api "embedded" u' = Some "true" /\
       (forall l, lang = Some l -> l <> "" ->
          searchParams_get api "lang" u' = Some l) /\
       scheme api u' = scheme api u /\ host api u' = host api u /\
       pathname api u' = pathname api u) /\
  returns (getIframeSafeCheckoutUrl env input lang) /\
  (absent input \/ input = Val "" ->
   getIframeSafeCheckoutUrl env input lang = Normal None) /\
  (forall s, input = Val s -> s <> "" -> fails_to_parse env s ->
   getIframeSafeCheckoutUrl env input lang = Normal (Some s)).
Proof.
  unfold getIframeSafeCheckoutUrl.
  split; [|split; [apply enhance_returns|split]].
  - intros api url u -> Henv laws Hparse.
    match goal with |- context [enhanceCheckoutUrl env (Val url) ?o] =>
      destruct (enhance_parsed laws env url o Henv Hparse)
        as (u' & Hres & Hback & Hq & Hs & Hh & Hp)
    end.
    exists (toString api u'), u'. repeat split; trivial.
    + unfold searchParams_get. rewrite Hq.
      destruct (truthy_opt lang); simpl; apply get_set_same.
    + intros l -> Hl%truthy_nonempty. unfold searchParams_get.
      rewrite Hq. simpl. rewrite Hl. simpl. rewrite Hl.
      rewrite get_set_other by discriminate. apply get_set_same.
  - intros [[-> | ->] | ->]; reflexivity.
  - intros s -> Hs Hfail. now apply enhance_unparsed.
Qed.

Lemma getIframeSafeCheckoutUrl_embedded_witness :
  exists r u',
    getIframeSafeCheckoutUrl browser_env (Val "https://pay.example/c/abc")
      (Some "de") = Normal (Some r) /\
    parse SimpleUrl.api r = Some u' /\
    searchParams_get SimpleUrl.api "embedded" u' = Some "true" /\
    searchParams_get SimpleUrl.api "lang" u' = Some "de".
Proof.
  destruct (proj1 (getIframeSafeCheckoutUrl_embedded browser_env
                     (Val "https://pay.example/c/abc") (Some "de"))
              SimpleUrl.api "https://pay.example/c/abc"
              {| SimpleUrl.scheme := "https"; SimpleUrl.host := "pay.example";
                 SimpleUrl.pathname := "/c/abc"; SimpleUrl.query := [];
                 SimpleUrl.hash := None |}
              eq_refl eq_refl SimpleUrl_laws eq_refl)
    as (r & u' & Hres & Hback & Hemb & Hlang & _).
  exists r, u'. repeat split; trivial.
  apply Hlang; [reflexivity|discriminate].
Defined.

(** C7 as stated fails when the language passed is the empty string: the
    result has [embedded=true] but no [lang] parameter. *)
Lemma getIframeSafeCheckoutUrl_empty_language_counterexample :
  getIframeSafeCheckoutUrl browser_env (Val "https://pay.example/c/abc")
    (Some "")
  = Normal (Some "https://pay.example/c/abc?embedded=true") /\
  ~ iframe_safe SimpleUrl.api (Some "")
      (getIframeSafeCheckoutUrl browser_env (Val "https://pay.example/c/abc")
         (Some "")).
Proof.
  split; [vm_compute; reflexivity|].
  intros (r & u' & Hres & Hback & _ & Hlang).
  vm_compute in Hres. injection Hres as <-.
  vm_compute in Hback. injection Hback as <-.
  specialize (Hlang "" eq_refl). vm_compute in Hlang. discriminate.
Qed.

(* ================================================================== *)
(** ** isValidLanguageCode *)

(** With [^] in front, no match starts after index 0. *)
Lemma search_anchored s : RegExp.search languageCodePattern false s = false.
Proof. induction s as [|c s IH]; simpl; [reflexivity|exact IH]. Qed.

(** The matcher run on the literal, by the length of the input. *)
Lemma isValidLanguageCode_cases s :
  isValidLanguageCode s =
  match s with
  | String a (String b rest) =>
      is_lower a && is_lower b &&
      match rest with
      | EmptyString => true
      | String c (String d (String e EmptyString)) =>
          Ascii.eqb "-" c && is_upper d && is_upper e
      | _ => false
      end
  | _ => false
  end.
Proof.
  unfold isValidLanguageCode, RegExp.test.
  destruct s as [|a s]; [reflexivity|].
  cbn [RegExp.search]. rewrite search_anchored, orb_false_r.
  cbn [RegExp.run languageCodePattern andb].
  change (RegExp.in_range "a" "z") with is_lower.
  change (RegExp.in_range "A" "Z") with is_upper.
  destruct s as [|b [|c [|d [|e [|f s]]]]];
    rewrite ?andb_false_r, ?orb_false_r, ?andb_true_r, ?andb_assoc;
    reflexivity.
Qed.

(** C6.  [isValidLanguageCode(s)] is true exactly when [s] is two lowercase
    letters, optionally followed by a hyphen and two uppercase letters; so
    it is true for ["de"] and ["en-US"] and false for the empty string,
    for ["EN"] and for ["eng"]. *)
Theorem isValidLanguageCode_shape :
  (forall s, isValidLanguageCode s = true <-> language_tag_shape s) /\
  isValidLanguageCode "de" = true /\
  isValidLanguageCode "en-US" = true /\
  isValidLanguageCode "" = false /\
  isValidLanguageCode "EN" = false /\
  isValidLanguageCode "eng" = false.
Proof.
  split; [|repeat split].
  intros s. rewrite isValidLanguageCode_cases. unfold language_tag_shape. split.
  - destruct s as [|a [|b rest]]; try discriminate.
    intros [[Ha Hb]%andb_prop Hrest]%andb_prop.
    exists a, b. repeat split; trivial.
    destruct rest as [|c [|d [|e [|f rest]]]]; try discriminate; [now left|].
    apply andb_prop in Hrest as [[Hc%Ascii.eqb_eq Hd]%andb_prop He].
    subst c. right. exists d, e. now repeat split.
  - intros (a & b & Ha & Hb & [-> | (c & d & Hc & Hd & ->)]).
    + now rewrite Ha, Hb.
    + now rewrite Ha, Hb, Hc, Hd.
Qed.

(* ================================================================== *)
(** ** BrowserUtils *)

Lemma startsWith_prefix s sub :
  startsWith s sub = true <-> exists post, s = (sub ++ post)%string.
Proof.
  revert s; induction sub as [|c sub IH]; intros s; simpl.
  - split; [now exists s|reflexivity].
  - destruct s as [|d s]; [split; [discriminate|now intros [? ?]]|].
    rewrite andb_true_iff, IH, Ascii.eqb_eq. split.
    + intros [-> [post ->]]. now exists post.
    + intros [post [= -> ->]]. split; [reflexivity|now exists post].
Qed.

Lemma includes_infix s sub :
  includes s sub = true <-> exists pre post, s = (pre ++ sub ++ post)%string.
Proof.
  induction s as [|d s IH]; simpl; rewrite orb_true_iff, startsWith_prefix.
  - split.
    + intros [[post H]|]; [|discriminate]. now exists EmptyString, post.
    + intros (pre & post & H). left. destruct pre; [now exists post|discriminate].
  - rewrite IH. split.
    + intros [[post H]|(pre & post & ->)].
      * now exists EmptyString, post.
      * now exists (String d pre), post.
    + intros (pre & post & H). destruct pre as [|c pre].
      * left. now exists post.
      * right. injection H as -> ->. now exists pre, post.
Qed.

Lemma toLowerCase_app a b :
  toLowerCase (a ++ b) = (toLowerCase a ++ toLowerCase b)%string.
Proof. induction a as [|c a IH]; simpl; [reflexivity|now rewrite IH]. Qed.

Lemma toLowerCase_split s a b :
  toLowerCase s = (a ++ b)%string ->
  exists s1 s2, s = (s1 ++ s2)%string /\ toLowerCase s1 = a /\ toLowerCase s2 = b.
Proof.
  revert s; induction a as [|c a IH]; intros s H.
  - now exists EmptyString, s.
  - destruct s as [|d s]; [discriminate|]. simpl in H. injection H as Hc H.
    destruct (IH s H) as (s1 & s2 & -> & <- & <-).
    exists (String d s1), s2. simpl. now rewrite Hc.
Qed.

Lemma includes_lower s marker :
  includes (toLowerCase s) (toLowerCase marker) = true
  <-> occurs_ignoring_case s marker.
Proof.
  rewrite includes_infix. unfold occurs_ignoring_case. split.
  - intros (pre & post & H).
    apply toLowerCase_split in H as (s1 & s' & -> & <- & H).
    apply toLowerCase_split in H as (w & s2 & -> & Hw & <-).
    now exists s1, w, s2.
  - intros (pre & w & post & -> & Hw).
    exists (toLowerCase pre), (toLowerCase post).
    now rewrite !toLowerCase_app, Hw.
Qed.

(** C9.  [BrowserUtils.isChromium()] is true exactly when there is a
    navigator whose user agent contains, whatever the case of its letters,
    one of [chrome], [chromium] and [edge]; it is false, without a throw,
    when there is no navigator; and [needsLanguageWorkaround()] returns what
    [isChromium()] returns in every environment.  A user agent with
    [Chrome/117] gives true, one with [Firefox/119] false. *)
Theorem isChromium_user_agent :
  (forall env,
     BrowserUtils.isChromium env = true <->
     exists nav,
       navigator env = Some nav /\
       (occurs_ignoring_case (Navigator.userAgent nav) "chrome" \/
        occurs_ignoring_case (Navigator.userAgent nav) "chromium" \/
        occurs_ignoring_case (Navigator.userAgent nav) "edge")) /\
  (forall env, navigator env = None -> BrowserUtils.isChromium env = false) /\
  (forall env,
     BrowserUtils.needsLanguageWorkaround env = BrowserUtils.isChromium env) /\
  BrowserUtils.isChromium browser_env = true /\
  BrowserUtils.isChromium firefox_env = false.
Proof.
  split; [|split; [|split; [|split]]].
  - intros env. unfold BrowserUtils.isChromium.
    destruct (navigator env) as [nav|].
    + cbv zeta. rewrite !orb_true_iff.
      change "chrome" with (toLowerCase "chrome") at 1.
      change "chromium" with (toLowerCase "chromium") at 1.
      change "edge" with (toLowerCase "edge") at 1.
      rewrite !includes_lower.
      split.
      * intros H. exists nav. split; [reflexivity|tauto].
      * intros (nav' & [= <-] & H). tauto.
    + split; [discriminate|]. now intros (nav & [=] & _).
  - intros env H. unfold BrowserUtils.isChromium. now rewrite H.
  - reflexivity.
  - vm_compute; reflexivity.
  - vm_compute; reflexivity.
Qed.

Lemma isChromium_user_agent_witness :
  BrowserUtils.isChromium bare_env = false.
Proof.
  apply (proj1 (proj2 isChromium_user_agent) bare_env).
  reflexivity.
Defined.

(* ================================================================== *)
(** ** Which operations throw *)

(** [enhanceCheckoutUrl] reads nothing of the environment but the URL
    primitive. *)
Lemma enhance_url_only env env' input options :
  URL env = URL env' ->
  enhanceCheckoutUrl env input options = enhanceCheckoutUrl env' input options.
Proof. intros H. unfold enhanceCheckoutUrl. now rewrite H. Qed.

(** On globals of the declared shape the functions on untyped globals do
    what the functions on [Env] do. *)
Lemma isChromium_of_env env :
  Untyped.BrowserUtils.isChromium (Untyped.of_env env)
  = Normal (BrowserUtils.isChromium env).
Proof.
  unfold Untyped.BrowserUtils.isChromium, BrowserUtils.isChromium. simpl.
  now destruct (navigator env).
Qed.

Lemma isFirefox_of_env env :
  Untyped.BrowserUtils.isFirefox (Untyped.of_env env)
  = Normal (BrowserUtils.isFirefox env).
Proof.
  unfold Untyped.BrowserUtils.isFirefox, BrowserUtils.isFirefox. simpl.
  now destruct (navigator env).
Qed.

Lemma getPreferredLanguage_of_env env :
  Untyped.BrowserUtils.getPreferredLanguage (Untyped.of_env env)
  = Normal (BrowserUtils.getPreferredLanguage env).
Proof.
  unfold Untyped.BrowserUtils.getPreferredLanguage,
    BrowserUtils.getPreferredLanguage. simpl.
  destruct (navigator env) as [nav|]; simpl; [|reflexivity].
  now destruct (truthy (Navigator.language nav)).
Qed.

Lemma redirectToCheckout_of_env env input lang :
  Untyped.redirectToCheckout (Untyped.of_env env) input lang
  = (env' <- redirectToCheckout env input lang ;; Normal (Untyped.of_env env')).
Proof.
  unfold Untyped.redirectToCheckout, redirectToCheckout. simpl.
  destruct (window env) as [w|]; simpl; [|reflexivity].
  match goal with |- context [enhanceCheckoutUrl env input ?o] =>
    rewrite (@enhance_url_only (Untyped.url_env (Untyped.of_env env)) env
               input o eq_refl);
    destruct (enhance_returns env input o) as [[r|] ->]
  end; simpl; [|reflexivity].
  now destruct (truthy r).
Qed.

(** A predicate that lowercases the user agent throws exactly when there
    is a navigator that has none. *)
Lemma userAgent_predicate_throws g (test : string -> bool) :
  (exists e,
     match Untyped.Globals.navigator g with
     | None => Normal false
     | Some nav =>
         ua <- Untyped.userAgent_toLowerCase nav ;; Normal (test ua)
     end = Throw e)
  <-> navigator_without_userAgent g.
Proof.
  unfold navigator_without_userAgent, Untyped.userAgent_toLowerCase.
  destruct (Untyped.Globals.navigator g) as [nav|].
  - destruct (Untyped.AnyNavigator.userAgent nav) as [ua|] eqn:E; simpl.
    + split; [intros [e He]; discriminate|].
      intros (nav' & [= <-] & H). congruence.
    + split; [now exists nav|]. intros _. now eexists.
  - split; [intros [e He]; discriminate|]. now intros (nav & [=] & _).
Qed.

(** C8.  [redirectToCheckout] throws the unsupported-environment error
    exactly when there is no [window]; anything else it throws comes from a
    window without [location].  [enhanceCheckoutUrl],
    [extractLanguageFromUrl] and [getIframeSafeCheckoutUrl] complete
    normally on every input in every environment.  The [BrowserUtils]
    predicates complete normally when there is no navigator and when the
    navigator has a [userAgent], as its declaration says; on a navigator
    without [userAgent], such as [{}], [isChromium], [isFirefox] and
    [needsLanguageWorkaround] throw a [TypeError], where they are meant
    never to throw. *)
Theorem operations_that_throw :
  (forall g input lang,
     Untyped.redirectToCheckout g input lang = Throw unsupported_environment
     <-> Untyped.Globals.window g = None) /\
  (forall g input lang e,
     Untyped.redirectToCheckout g input lang = Throw e ->
     e = unsupported_environment \/ window_without_location g) /\
  (forall env input options, returns (enhanceCheckoutUrl env input options)) /\
  (forall env s, returns (extractLanguageFromUrl env s)) /\
  (forall env input lang, returns (getIframeSafeCheckoutUrl env input lang)) /\
  (forall g,
     (exists e, Untyped.BrowserUtils.isChromium g = Throw e)
     <-> navigator_without_userAgent g) /\
  (forall g,
     (exists e, Untyped.BrowserUtils.isFirefox g = Throw e)
     <-> navigator_without_userAgent g) /\
  (forall g,
     (exists e, Untyped.BrowserUtils.needsLanguageWorkaround g = Throw e)
     <-> navigator_without_userAgent g) /\
  (forall env,
     Untyped.BrowserUtils.isChromium (Untyped.of_env env)
     = Normal (BrowserUtils.isChromium env) /\
     Untyped.BrowserUtils.isFirefox (Untyped.of_env env)
     = Normal (BrowserUtils.isFirefox env) /\
     Untyped.BrowserUtils.needsLanguageWorkaround (Untyped.of_env env)
     = Normal (BrowserUtils.needsLanguageWorkaround env)) /\
  Untyped.BrowserUtils.isChromium empty_navigator_globals
  = Throw (TypeError "Cannot read properties of undefined (reading 'toLowerCase')").
Proof.
  assert (Hredirect : forall g input lang,
            match Untyped.Globals.window g with
            | None =>
                Untyped.redirectToCheckout g input lang
                = Throw unsupported_environment
            | Some win =>
                returns (Untyped.redirectToCheckout g input lang) \/
                (Untyped.AnyWindow.location win = None /\
                 exists msg,
                   Untyped.redirectToCheckout g input lang
                   = Throw (TypeError msg))
            end).
  { intros g input lang. unfold Untyped.redirectToCheckout.
    destruct (Untyped.Globals.window g) as [win|]; [|reflexivity].
    match goal with |- context [enhanceCheckoutUrl ?v input ?o] =>
      destruct (enhance_returns v input o) as [[r|] ->]
    end; simpl; [|left; now eexists].
    destruct (truthy r); [|left; now eexists].
    unfold Untyped.assign_href.
    destruct (Untyped.AnyWindow.location win);
      [left; now eexists|right; split; [reflexivity|now eexists]]. }
  split; [|split; [|split; [|split; [|split; [|split; [|split; [|split;
    [|split]]]]]]]].
  - intros g input lang. specialize (Hredirect g input lang).
    destruct (Untyped.Globals.window g) as [win|].
    + split; [|discriminate]. intros H.
      destruct Hredirect as [[a Ha]|[_ [msg Hm]]]; rewrite H in *; discriminate.
    + split; [reflexivity|intros _; exact Hredirect].
  - intros g input lang e He. specialize (Hredirect g input lang).
    unfold window_without_location.
    destruct (Untyped.Globals.window g) as [win|].
    + destruct Hredirect as [[a Ha]|[Hloc _]]; [congruence|].
      right. now exists win.
    + left. congruence.
  - apply enhance_returns.
  - intros env s. unfold returns, extractLanguageFromUrl, new_URL.
    destruct (URL env) as [api|]; [|now eexists].
    destruct (parse api s); now eexists.
  - intros. apply enhance_returns.
  - intros g. apply userAgent_predicate_throws.
  - intros g. apply userAgent_predicate_throws.
  - intros g. apply userAgent_predicate_throws.
  - intros env. split; [apply isChromium_of_env|].
    split; [apply isFirefox_of_env|apply isChromium_of_env].
  - reflexivity.
Qed.

Lemma operations_that_throw_witness :
  Untyped.redirectToCheckout (Untyped.of_env bare_env)
    (Val "https://pay.example/c/abc") (Some "de")
  = Throw unsupported_environment /\
  exists e,
    Untyped.BrowserUtils.isFirefox empty_navigator_globals = Throw e.
Proof.
  split.
  - apply (proj2 (proj1 operations_that_throw (Untyped.of_env bare_env)
                    (Val "https://pay.example/c/abc") (Some "de"))).
    reflexivity.
  - apply (proj2 (proj1 (proj2 (proj2 (proj2 (proj2 (proj2 (proj2
             operations_that_throw)))))) empty_navigator_globals)).
    eexists. split; reflexivity.
Defined.

(* ================================================================== *)
(** ** appendLanguageToCheckoutUrl *)

(** X1.  [appendLanguageToCheckoutUrl] never throws, and on a string that
    does not parse as a URL (or without a URL parser) it returns the string
    itself; so for the empty string it returns the empty string, where
    [enhanceCheckoutUrl] returns null. *)
Theorem appendLanguageToCheckoutUrl_fail_soft env checkoutUrl lang :
  returns (appendLanguageToCheckoutUrl env checkoutUrl lang) /\
  (fails_to_parse env checkoutUrl ->
   appendLanguageToCheckoutUrl env checkoutUrl lang = Normal checkoutUrl) /\
  (fails_to_parse env "" ->
   appendLanguageToCheckoutUrl env "" lang = Normal "" /\
   enhanceCheckoutUrl env (Val "") (language_only lang) = Normal None).
Proof.
  assert (Hfail : forall s, fails_to_parse env s ->
            appendLanguageToCheckoutUrl env s lang = Normal s).
  { intros s. unfold fails_to_parse, appendLanguageToCheckoutUrl, new_URL.
    destruct (URL env) as [api|]; [|reflexivity]. now intros ->. }
  split; [|split].
  - unfold returns, appendLanguageToCheckoutUrl, new_URL.
    destruct (URL env) as [api|]; [|now eexists].
    destruct (parse api checkoutUrl); simpl; now eexists.
  - apply Hfail.
  - intros H. split; [now apply Hfail|reflexivity].
Qed.

Lemma appendLanguageToCheckoutUrl_fail_soft_witness :
  appendLanguageToCheckoutUrl browser_env "not a url" "de" = Normal "not a url".
Proof.
  apply (proj1 (proj2 (appendLanguageToCheckoutUrl_fail_soft browser_env
                         "not a url" "de"))).
  vm_compute; reflexivity.
Defined.

Section AppendFacts.

Variable api : UrlApi.
Hypothesis laws : UrlLaws api.

(** On a string that parses, [appendLanguageToCheckoutUrl] returns the
    serialisation of a URL object that parses back, whose query is the
    input's with [lang] and then [language] set. *)
Lemma append_parsed env s u lang :
  URL env = Some api -> parse api s = Some u ->
  exists u',
    appendLanguageToCheckoutUrl env s lang = Normal (toString api u') /\
    parse api (toString api u') = Some u' /\
    searchParams api u'
    = URLSearchParams.set "language" lang
        (URLSearchParams.set "lang" lang (searchParams api u)) /\
    scheme api u' = scheme api u /\ host api u' = host api u /\
    pathname api u' = pathname api u.
Proof.
  intros Henv Hparse.
  exists (searchParams_set api "language" lang
            (searchParams_set api "lang" lang u)).
  destruct (same_base_trans (same_base_set laws "lang" lang u)
              (same_base_set laws "language" lang _))
    as (Hwf & Hsch & Hh & Hp).
  repeat split; trivial.
  - unfold appendLanguageToCheckoutUrl, new_URL. now rewrite Henv, Hparse.
  - apply (parse_toString laws), Hwf, (parse_wf laws) with (1 := Hparse).
  - now rewrite !(searchParams_of_set laws).
Qed.

End AppendFacts.

(** X2.  On a string that parses as a URL, [appendLanguageToCheckoutUrl]
    returns a URL string in which [lang] and [language] both have the
    language as their single value, even when the language is the empty
    string; every other parameter keeps its values, and scheme, host and
    path are those of the input. *)
Theorem appendLanguageToCheckoutUrl_sets_both env api checkoutUrl u lang :
  URL env = Some api -> UrlLaws api -> parse api checkoutUrl = Some u ->
  exists r u',
    appendLanguageToCheckoutUrl env checkoutUrl lang = Normal r /\
    parse api r = Some u' /\
    URLSearchParams.getAll "lang" (searchParams api u') = [lang] /\
    URLSearchParams.getAll "language" (searchParams api u') = [lang] /\
    (forall key, key <> "lang" -> key <> "language" ->
       URLSearchParams.getAll key (searchParams api u')
       = URLSearchParams.getAll key (searchParams api u)) /\
    scheme api u' = scheme api u /\ host api u' = host api u /\
    pathname api u' = pathname api u.
Proof.
  intros Henv laws Hparse.
  destruct (append_parsed laws env checkoutUrl lang Henv Hparse)
    as (u' & Hres & Hback & Hq & Hs & Hh & Hp).
  exists (toString api u'), u'. rewrite Hq. repeat split; trivial.
  - rewrite getAll_set_other by discriminate. apply getAll_set_same.
  - apply getAll_set_same.
  - intros key H1 H2. rewrite !getAll_set_other by congruence. reflexivity.
Qed.

Lemma appendLanguageToCheckoutUrl_sets_both_witness :
  exists r u',
    appendLanguageToCheckoutUrl browser_env
      "https://pay.example/c/abc?lang=en&x=1" "" = Normal r /\
    parse SimpleUrl.api r = Some u' /\
    URLSearchParams.getAll "lang" (searchParams SimpleUrl.api u') = [""] /\
    URLSearchParams.getAll "language" (searchParams SimpleUrl.api u') = [""].
Proof.
  destruct (@appendLanguageToCheckoutUrl_sets_both browser_env SimpleUrl.api
              "https://pay.example/c/abc?lang=en&x=1"
              {| SimpleUrl.scheme := "https"; SimpleUrl.host := "pay.example";
                 SimpleUrl.pathname := "/c/abc";
                 SimpleUrl.query := [("lang", "en"); ("x", "1")];
                 SimpleUrl.hash := None |} "" eq_refl SimpleUrl_laws eq_refl)
    as (r & u' & H1 & H2 & H3 & H4 & _).
  exists r, u'. repeat split; assumption.
Defined.

(** X3.  For a non-empty URL string and a non-empty language,
    [appendLanguageToCheckoutUrl(url, l)] returns what
    [enhanceCheckoutUrl(url, { language: l, additionalParams: { language: l } })]
    returns, in every environment and whether or not the string parses. *)
Theorem appendLanguageToCheckoutUrl_as_enhance env checkoutUrl lang :
  checkoutUrl <> "" -> lang <> "" ->
  exists r,
    appendLanguageToCheckoutUrl env checkoutUrl lang = Normal r /\
    enhanceCheckoutUrl env (Val checkoutUrl) (both_language_params lang)
    = Normal (Some r).
Proof.
  intros Hu%truthy_nonempty Hl%truthy_nonempty.
  unfold appendLanguageToCheckoutUrl, enhanceCheckoutUrl, new_URL.
  rewrite Hu. simpl. rewrite Hl.
  destruct (URL env) as [api|]; [|now eexists].
  destruct (parse api checkoutUrl); simpl; now eexists.
Qed.

Lemma appendLanguageToCheckoutUrl_as_enhance_witness :
  exists r,
    appendLanguageToCheckoutUrl browser_env "https://pay.example/c/abc" "de"
    = Normal r /\
    enhanceCheckoutUrl browser_env (Val "https://pay.example/c/abc")
      (both_language_params "de") = Normal (Some r).
Proof.
  apply (@appendLanguageToCheckoutUrl_as_enhance browser_env
           "https://pay.example/c/abc" "de"); discriminate.
Defined.

(** X4.  [extractLanguageFromUrl] on the result of
    [appendLanguageToCheckoutUrl(url, l)], for a string that parses: the
    language [l] when it is non-empty; for the empty language both written
    parameters are passed over and the result is the lookup of [locale] in
    the input URL. *)
Theorem extract_after_append env api checkoutUrl u lang :
  URL env = Some api -> UrlLaws api -> parse api checkoutUrl = Some u ->
  exists r,
    appendLanguageToCheckoutUrl env checkoutUrl lang = Normal r /\
    (lang <> "" -> extractLanguageFromUrl env r = Normal (Some lang)) /\
    (lang = "" ->
     extractLanguageFromUrl env r
     = Normal (URLSearchParams.get "locale" (searchParams api u))).
Proof.
  intros Henv laws Hparse.
  destruct (append_parsed laws env checkoutUrl lang Henv Hparse)
    as (u' & Hres & Hback & Hq & _).
  exists (toString api u'). split; [exact Hres|].
  rewrite (extract_parsed env _ Henv Hback), Hq.
  rewrite get_set_same.
  rewrite (get_set_other lang (name := "lang")) by discriminate.
  rewrite get_set_same.
  rewrite !get_set_other by discriminate.
  split.
  - intros Hl. now rewrite or_else_nonempty.
  - now intros ->.
Qed.

Lemma extract_after_append_witness :
  exists r,
    appendLanguageToCheckoutUrl browser_env
      "https://pay.example/c/abc?locale=fr" "" = Normal r /\
    extractLanguageFromUrl browser_env r = Normal (Some "fr").
Proof.
  destruct (@extract_after_append browser_env SimpleUrl.api
              "https://pay.example/c/abc?locale=fr"
              {| SimpleUrl.scheme := "https"; SimpleUrl.host := "pay.example";
                 SimpleUrl.pathname := "/c/abc";
                 SimpleUrl.query := [("locale", "fr")];
                 SimpleUrl.hash := None |} "" eq_refl SimpleUrl_laws eq_refl)
    as (r & H1 & _ & H3).
  exists r. split; [exact H1|]. exact (H3 eq_refl).
Defined.

(* ================================================================== *)
(** ** isFirefox and getPreferredLanguage *)

(** X5.  [BrowserUtils.isFirefox()] is true exactly when there is a
    navigator whose user agent contains [firefox], whatever the case of its
    letters; without a navigator it is false. *)
Theorem isFirefox_user_agent env :
  (BrowserUtils.isFirefox env = true <->
   exists nav,
     navigator env = Some nav /\
     occurs_ignoring_case (Navigator.userAgent nav) "firefox") /\
  (navigator env = None -> BrowserUtils.isFirefox env = false).
Proof.
  unfold BrowserUtils.isFirefox. destruct (navigator env) as [nav|].
  - split; [|discriminate].
    change "firefox" with (toLowerCase "firefox") at 1.
    rewrite includes_lower. split.
    + intros H. now exists nav.
    + now intros (nav' & [= <-] & H).
  - split; [|reflexivity]. split; [discriminate|]. now intros (nav & [=] & _).
Qed.

Lemma isFirefox_user_agent_witness :
  BrowserUtils.isFirefox bare_env = false.
Proof. apply (proj2 (isFirefox_user_agent bare_env)). reflexivity. Defined.

Lemma before_rest c s :
  exists rest,
    s = (before c s ++ rest)%string /\
    (rest = "" \/ exists r, rest = String c r).
Proof.
  induction s as [|d s (rest & Hs & Hrest)]; simpl.
  - exists "". now split; [|left].
  - destruct (Ascii.eqb_spec d c) as [->|Hd].
    + exists (String c s). split; [reflexivity|right; now exists s].
    + exists rest. split; [simpl; now rewrite <- Hs|exact Hrest].
Qed.

Lemma before_excludes c s : includes (before c s) (String c "") = false.
Proof.
  induction s as [|d s IH]; simpl; [reflexivity|].
  destruct (Ascii.eqb_spec d c) as [->|Hd]; [reflexivity|].
  simpl. rewrite IH, orb_false_r, andb_true_r.
  destruct (Ascii.eqb_spec c d); [congruence|reflexivity].
Qed.

Lemma before_empty c s : before c s = "" <-> s = "" \/ exists r, s = String c r.
Proof.
  destruct s as [|d s]; simpl; [split; auto|].
  destruct (Ascii.eqb_spec d c) as [->|Hd]; split; try discriminate.
  - intros _. right. now exists s.
  - reflexivity.
  - intros [|[r [= ? ?]]]; [discriminate|contradiction].
Qed.

(** X6.  [BrowserUtils.getPreferredLanguage()] is ["en"] when there is no
    navigator or its language is empty; otherwise it is the part of the
    navigator's language before the first hyphen.  The result never
    contains a hyphen, and it is the empty string exactly when the
    navigator's language begins with a hyphen. *)
Theorem getPreferredLanguage_primary_subtag env :
  (navigator env = None -> BrowserUtils.getPreferredLanguage env = "en") /\
  (forall nav, navigator env = Some nav -> Navigator.language nav = "" ->
     BrowserUtils.getPreferredLanguage env = "en") /\
  (forall nav, navigator env = Some nav -> Navigator.language nav <> "" ->
     exists rest,
       Navigator.language nav
       = (BrowserUtils.getPreferredLanguage env ++ rest)%string /\
       (rest = "" \/ leading_hyphen rest)) /\
  includes (BrowserUtils.getPreferredLanguage env) "-" = false /\
  (BrowserUtils.getPreferredLanguage env = "" <->
   exists nav,
     navigator env = Some nav /\ leading_hyphen (Navigator.language nav)).
Proof.
  unfold BrowserUtils.getPreferredLanguage, leading_hyphen.
  destruct (navigator env) as [nav|].
  - destruct (truthy (Navigator.language nav)) eqn:Ht.
    + apply truthy_nonempty in Ht. repeat split; try discriminate.
      * intros nav' [= <-] H. contradiction.
      * intros nav' [= <-] _. apply before_rest.
      * apply before_excludes.
      * intros [H|H]%before_empty; [contradiction|now exists nav].
      * intros (nav' & [= <-] & H). apply before_empty. now right.
    + destruct (Navigator.language nav) eqn:E; [|discriminate].
      repeat split; try discriminate; try reflexivity.
      * intros nav' [= <-]. rewrite E. congruence.
      * intros (nav' & [= <-] & r & H). rewrite E in H. discriminate.
  - repeat split; try discriminate; try reflexivity.
    now intros (nav & [=] & _).
Qed.

Lemma getPreferredLanguage_primary_subtag_witness :
  exists rest,
    "de-DE" = (BrowserUtils.getPreferredLanguage browser_env ++ rest)%string /\
    (rest = "" \/ leading_hyphen rest).
Proof.
  apply (proj1 (proj2 (proj2 (getPreferredLanguage_primary_subtag browser_env)))
           {| Navigator.userAgent :=
                "Mozilla/5.0 (X11; Linux x86_64) AppleWebKit/537.36 (KHTML, like Gecko) Chrome/117.0.0.0 Safari/537.36";
              Navigator.language := "de-DE" |}).
  - reflexivity.
  - discriminate.
Defined.

Lemma lower_not_hyphen c : is_lower c = true -> Ascii.eqb c "-" = false.
Proof. each_char c; intros H; try reflexivity; discriminate H. Qed.

(** X7.  When the navigator's language is a code that [isValidLanguageCode]
    accepts, [getPreferredLanguage()] is its two-letter primary tag, and
    [isValidLanguageCode] accepts that too. *)
Theorem getPreferredLanguage_valid env nav :
  navigator env = Some nav ->
  isValidLanguageCode (Navigator.language nav) = true ->
  isValidLanguageCode (BrowserUtils.getPreferredLanguage env) = true /\
  exists a b,
    BrowserUtils.getPreferredLanguage env = String a (String b "") /\
    (Navigator.language nav = String a (String b "") \/
     exists region, Navigator.language nav
                    = String a (String b (String "-" region))).
Proof.
  intros Hnav Hvalid. unfold BrowserUtils.getPreferredLanguage. rewrite Hnav.
  rewrite isValidLanguageCode_cases in Hvalid.
  destruct (Navigator.language nav) as [|a [|b rest]]; try discriminate.
  apply andb_prop in Hvalid as [[Ha Hb]%andb_prop Hrest].
  assert (Hab : isValidLanguageCode (String a (String b "")) = true).
  { rewrite isValidLanguageCode_cases. now rewrite Ha, Hb. }
  cbn [truthy before].
  rewrite (lower_not_hyphen _ Ha), (lower_not_hyphen _ Hb).
  destruct rest as [|c [|d [|e [|f rest]]]]; try discriminate.
  - split; [exact Hab|]. exists a, b. split; [reflexivity|now left].
  - apply andb_prop in Hrest as [[Hc%Ascii.eqb_eq _]%andb_prop _]. subst c.
    cbn [before]. rewrite Ascii.eqb_refl.
    split; [exact Hab|]. exists a, b. split; [reflexivity|].
    right. now eexists.
Qed.

Lemma getPreferredLanguage_valid_witness :
  isValidLanguageCode (BrowserUtils.getPreferredLanguage firefox_env) = true.
Proof.
  apply (@getPreferredLanguage_valid firefox_env
           {| Navigator.userAgent :=
                "Mozilla/5.0 (X11; Linux x86_64; rv:119.0) Gecko/20100101 Firefox/119.0";
              Navigator.language := "en-US" |}).
  - reflexivity.
  - vm_compute; reflexivity.
Defined.

(* ================================================================== *)
(** ** redirectToCheckout: the navigation *)

Lemma redirect_options_language lang :
  language (redirect_options lang) = (if truthy_opt lang then lang else None) /\
  additionalParams (redirect_options lang) = None /\
  preserveExisting (redirect_options lang) = None.
Proof. unfold redirect_options. now destruct (truthy_opt lang). Qed.

Lemma redirect_unfold env w input lang :
  window env = Some w ->
  redirectToCheckout env input lang
  = (enhancedUrl <- enhanceCheckoutUrl env input (redirect_options lang) ;;
     match enhancedUrl with
     | Some target =>
         if truthy target then Normal (set_location_href env target)
         else Normal env
     | None => Normal env
     end).
Proof. intros H. unfold redirectToCheckout, redirect_options. now rewrite H. Qed.

(** In a browser, on a string that parses, [redirectToCheckout] navigates
    to the serialisation of a URL object that parses back, with the query
    of the input after the language has been applied. *)
Lemma redirect_parsed env w api s u lang :
  window env = Some w -> URL env = Some api -> UrlLaws api ->
  parse api s = Some u ->
  exists u',
    redirectToCheckout env (Val s) lang
    = Normal (set_location_href env (toString api u')) /\
    parse api (toString api u') = Some u' /\
    searchParams api u'
    = language_applied (if truthy_opt lang then lang else None)
        (searchParams api u) /\
    scheme api u' = scheme api u /\ host api u' = host api u /\
    pathname api u' = pathname api u.
Proof.
  intros Hw Henv laws Hparse.
  destruct (enhance_parsed laws env s (redirect_options lang) Henv Hparse)
    as (u' & Hres & Hback & Hq & Hbase).
  destruct (redirect_options_language lang) as (Hl & Ha & Hp).
  rewrite Hl, Ha, Hp in Hq. simpl in Hq.
  exists u'. repeat split; try tauto.
  rewrite (@redirect_unfold env w (Val s) lang Hw), Hres. simpl.
  destruct (toString api u') eqn:E; [|reflexivity].
  rewrite (parse_empty laws) in Hback. discriminate.
Qed.

(** X8.  In an environment with a window, [redirectToCheckout] does not
    navigate when the checkout URL is null, undefined or empty; it
    navigates to the string itself when that is non-empty and does not
    parse as a URL; and for a string that parses it navigates to a URL with
    the scheme, host and path of the input, whose query is the input's when
    no non-empty language is passed.  Only [window.location.href] changes. *)
Theorem redirectToCheckout_navigates env w input lang :
  window env = Some w ->
  (absent input \/ input = Val "" ->
   redirectToCheckout env input lang = Normal env) /\
  (forall s, input = Val s -> s <> "" -> fails_to_parse env s ->
     redirectToCheckout env input lang = Normal (set_location_href env s)) /\
  (forall api s u,
     input = Val s -> URL env = Some api -> UrlLaws api ->
     parse api s = Some u ->
     exists r u',
       redirectToCheckout env input lang = Normal (set_location_href env r) /\
       parse api r = Some u' /\
       (truthy_opt lang = false -> searchParams api u' = searchParams api u) /\
       scheme api u' = scheme api u /\ host api u' = host api u /\
       pathname api u' = pathname api u) /\
  (forall env', redirectToCheckout env input lang = Normal env' ->
     URL env' = URL env /\ navigator env' = navigator env /\
     window env' <> None).
Proof.
  intros Hw. split; [|split; [|split]].
  - intros [[-> | ->] | ->]; rewrite (@redirect_unfold env w _ lang Hw);
      reflexivity.
  - intros s -> Hs Hfail. rewrite (@redirect_unfold env w _ lang Hw).
    rewrite (@enhance_unparsed env s (redirect_options lang) Hs Hfail). simpl.
    apply truthy_nonempty in Hs. now rewrite Hs.
  - intros api s u -> Henv laws Hparse.
    destruct (@redirect_parsed env w api s u lang Hw Henv laws Hparse)
      as (u' & Hres & Hback & Hq & Hbase).
    exists (toString api u'), u'. repeat split; try tauto.
    intros Hl. now rewrite Hl in Hq.
  - intros env'. rewrite (@redirect_unfold env w input lang Hw).
    destruct (enhance_returns env input (redirect_options lang)) as [[r|] ->];
      simpl; [destruct (truthy r)|]; intros [= <-]; simpl;
      rewrite ?Hw; repeat split; discriminate.
Qed.

Lemma redirectToCheckout_navigates_witness :
  redirectToCheckout browser_env (Val "not a url") (Some "de")
  = Normal (set_location_href browser_env "not a url").
Proof.
  refine (proj1 (proj2 (@redirectToCheckout_navigates browser_env _
            (Val "not a url") (Some "de") eq_refl)) "not a url" _ _ _).
  - reflexivity.
  - discriminate.
  - vm_compute; reflexivity.
Defined.

(** X9.  After [redirectToCheckout(url, l)] in a browser, for a string that
    parses and a non-empty language [l], [extractLanguageFromUrl] applied
    to the new [window.location.href] returns [l]. *)
Theorem redirectToCheckout_language_readable env w api s u l :
  window env = Some w -> URL env = Some api -> UrlLaws api ->
  parse api s = Some u -> l <> "" ->
  exists env' w',
    redirectToCheckout env (Val s) (Some l) = Normal env' /\
    window env' = Some w' /\
    extractLanguageFromUrl env' (Window.href (Window.location w'))
    = Normal (Some l).
Proof.
  intros Hw Henv laws Hparse Hl.
  destruct (@redirect_parsed env w api s u (Some l) Hw Henv laws Hparse)
    as (u' & Hres & Hback & Hq & _).
  apply truthy_nonempty in Hl as Ht. simpl in Hq. rewrite Ht in Hq.
  simpl in Hq. rewrite Ht in Hq.
  eexists _, _. split; [exact Hres|]. split; [reflexivity|]. simpl.
  rewrite (@extract_parsed api (set_location_href env (toString api u'))
             _ u' Henv Hback), Hq, get_set_same.
  now rewrite or_else_nonempty.
Qed.

Lemma redirectToCheckout_language_readable_witness :
  exists env' w',
    redirectToCheckout browser_env (Val "https://pay.example/c/abc?lang=en")
      (Some "de") = Normal env' /\
    window env' = Some w' /\
    extractLanguageFromUrl env' (Window.href (Window.location w'))
    = Normal (Some "de").
Proof.
  apply (@redirectToCheckout_language_readable browser_env _ SimpleUrl.api
           "https://pay.example/c/abc?lang=en"
           {| SimpleUrl.scheme := "https"; SimpleUrl.host := "pay.example";
              SimpleUrl.pathname := "/c/abc"; SimpleUrl.query := [("lang", "en")];
              SimpleUrl.hash := None |} "de" eq_refl eq_refl SimpleUrl_laws).
  - vm_compute; reflexivity.
  - discriminate.
Defined.

(* ================================================================== *)
(** ** enhanceCheckoutUrl, parameter by parameter *)

Section ValueFacts.

Import URLSearchParams.

Lemma has_getAll key q :
  has key q = match getAll key q with [] => false | _ :: _ => true end.
Proof.
  induction q as [|[k v] q IH]; simpl; [reflexivity|].
  destruct (String.eqb_spec k key); simpl; [reflexivity|exact IH].
Qed.

Lemma get_none_keys key (params : list (string * string)) :
  get key params = None <-> ~ In key (keys params).
Proof.
  induction params as [|[k v] params IH]; simpl; [tauto|].
  destruct (String.eqb_spec k key) as [->|Hk].
  - split; [discriminate|]. intros H. exfalso. apply H. now left.
  - rewrite IH. tauto.
Qed.

Lemma get_some_in key v (params : list (string * string)) :
  get key params = Some v -> In (key, v) params.
Proof.
  induction params as [|[k v'] params IH]; simpl; [discriminate|].
  destruct (String.eqb_spec k key) as [->|Hk].
  - intros [= ->]. now left.
  - intros H. right. now apply IH.
Qed.

Lemma getAll_language_applied lang key q :
  getAll key (language_applied lang q) = language_values lang key (getAll key q).
Proof.
  destruct lang as [l|]; simpl; [|reflexivity].
  destruct (truthy l); simpl; [|reflexivity].
  destruct (String.eqb_spec key "lang") as [->|Hk].
  - apply getAll_set_same.
  - apply getAll_set_other. congruence.
Qed.

(** The values of each parameter after the merge of [additionalParams]. *)
Lemma getAll_merge_entries preserve params key q :
  NoDup (keys params) ->
  getAll key (fold_left (merge_pair preserve) params q)
  = merged_values preserve params key (getAll key q).
Proof.
  intros Hnd. unfold merged_values.
  destruct (get key params) as [v|] eqn:E.
  - rewrite (@merge_entries_in preserve params q key v Hnd
               (@get_some_in key v params E)).
    rewrite has_getAll. now destruct (getAll key q).
  - apply merge_entries_other. now apply get_none_keys.
Qed.

Lemma language_values_idem lang key x :
  language_values lang key (language_values lang key x)
  = language_values lang key x.
Proof.
  destruct lang as [l|]; simpl; [|reflexivity].
  now destruct (truthy l && String.eqb key "lang").
Qed.

(** Applying the options a second time changes no parameter. *)
Lemma values_idem lang preserve params key x :
  merged_values preserve params key
    (language_values lang key
       (merged_values preserve params key (language_values lang key x)))
  = merged_values preserve params key (language_values lang key x).
Proof.
  unfold merged_values. destruct (get key params) as [v|];
    [|apply language_values_idem].
  destruct preserve; simpl.
  - reflexivity.
  - destruct (language_values lang key x) as [|y ys] eqn:E.
    + destruct lang as [l|]; simpl in *; [|reflexivity].
      destruct (truthy l && String.eqb key "lang"); [discriminate|reflexivity].
    + rewrite <- E, language_values_idem, E. reflexivity.
Qed.

Lemma merged_values_perm preserve params params' key x :
  NoDup (keys params) -> Permutation params params' ->
  merged_values preserve params key x = merged_values preserve params' key x.
Proof.
  intros Hnd Hperm. unfold merged_values.
  assert (Hnd' : NoDup (keys params')).
  { unfold keys. eapply Permutation_NoDup; [|exact Hnd].
    now apply Permutation_map. }
  assert (Hget : get key params = get key params').
  { destruct (get key params) as [v|] eqn:E.
    - apply get_some_in in E. apply (Permutation_in _ Hperm) in E.
      clear Hnd Hperm. induction params' as [|[k v'] ps IH]; [contradiction|].
      simpl. simpl in Hnd'. inversion Hnd' as [|? ? Hnot Hnd'']; subst.
      destruct (String.eqb_spec k key) as [->|Hk].
      + destruct E as [[= ->]|E]; [reflexivity|].
        exfalso. apply Hnot. now apply (in_map fst) in E.
      + destruct E as [[= ? ?]|E]; [contradiction|]. now apply IH.
    - symmetry. apply get_none_keys. apply get_none_keys in E.
      intros H. apply E. unfold keys in *.
      eapply Permutation_in; [|exact H].
      apply Permutation_sym. now apply Permutation_map. }
  now rewrite Hget.
Qed.

End ValueFacts.

(** X10.  On a string that parses as a URL, [enhanceCheckoutUrl] leaves
    every parameter alone that the options do not name: a key that is not
    in [additionalParams], and is not [lang] when a non-empty language is
    passed, has in the result the values it had in the input.  With no
    non-empty language and no [additionalParams] the whole query is the
    input's. *)
Theorem enhanceCheckoutUrl_untouched_params env api checkoutUrl u options :
  URL env = Some api -> UrlLaws api -> parse api checkoutUrl = Some u ->
  exists r u',
    enhanceCheckoutUrl env (Val checkoutUrl) options = Normal (Some r) /\
    parse api r = Some u' /\
    (forall key,
       ~ In key (keys (default [] (additionalParams options))) ->
       truthy_opt (language options) = false \/ key <> "lang" ->
       URLSearchParams.getAll key (searchParams api u')
       = URLSearchParams.getAll key (searchParams api u)) /\
    (truthy_opt (language options) = false ->
     default [] (additionalParams options) = [] ->
     searchParams api u' = searchParams api u).
Proof.
  intros Henv laws Hparse.
  destruct (enhance_parsed laws env checkoutUrl options Henv Hparse)
    as (u' & Hres & Hback & Hq & _).
  exists (toString api u'), u'. rewrite Hq. repeat split; trivial.
  - intros key Hnot Hlang.
    rewrite (@merge_entries_other _ _ _ key Hnot).
    apply (@language_applied_other (language options) _ key Hlang).
  - intros Hlang ->. simpl. destruct (language options) as [l|]; simpl in *;
      [now rewrite Hlang|reflexivity].
Qed.

Lemma enhanceCheckoutUrl_untouched_params_witness :
  exists r u',
    enhanceCheckoutUrl browser_env
      (Val "https://pay.example/c/abc?session=s1&lang=en")
      {| language := Some "de"; additionalParams := Some [("embedded", "true")];
         preserveExisting := None |} = Normal (Some r) /\
    parse SimpleUrl.api r = Some u' /\
    URLSearchParams.getAll "session" (searchParams SimpleUrl.api u') = ["s1"].
Proof.
  destruct (@enhanceCheckoutUrl_untouched_params browser_env SimpleUrl.api
              "https://pay.example/c/abc?session=s1&lang=en"
              {| SimpleUrl.scheme := "https"; SimpleUrl.host := "pay.example";
                 SimpleUrl.pathname := "/c/abc";
                 SimpleUrl.query := [("session", "s1"); ("lang", "en")];
                 SimpleUrl.hash := None |}
              {| language := Some "de";
                 additionalParams := Some [("embedded", "true")];
                 preserveExisting := None |}
              eq_refl SimpleUrl_laws eq_refl)
    as (r & u' & Hres & Hback & Hkeep & _).
  exists r, u'. repeat split; trivial.
  apply (Hkeep "session").
  - simpl. intros [H|[]]. discriminate H.
  - right. discriminate.
Defined.

(** X11.  The order of the entries of [additionalParams] does not matter
    for the values of any parameter: two option objects with the same
    language and [preserveExisting] whose entries are the same up to order
    give results in which every key has the same values. *)
Theorem enhanceCheckoutUrl_entry_order env api checkoutUrl u options options' :
  URL env = Some api -> UrlLaws api -> parse api checkoutUrl = Some u ->
  language options = language options' ->
  default true (preserveExisting options)
  = default true (preserveExisting options') ->
  NoDup (keys (default [] (additionalParams options))) ->
  Permutation (default [] (additionalParams options))
    (default [] (additionalParams options')) ->
  exists r u1 r' u2,
    enhanceCheckoutUrl env (Val checkoutUrl) options = Normal (Some r) /\
    parse api r = Some u1 /\
    enhanceCheckoutUrl env (Val checkoutUrl) options' = Normal (Some r') /\
    parse api r' = Some u2 /\
    forall key,
      URLSearchParams.getAll key (searchParams api u1)
      = URLSearchParams.getAll key (searchParams api u2).
Proof.
  intros Henv laws Hparse Hlang Hpres Hnd Hperm.
  destruct (enhance_parsed laws env checkoutUrl options Henv Hparse)
    as (u1 & Hres1 & Hback1 & Hq1 & _).
  destruct (enhance_parsed laws env checkoutUrl options' Henv Hparse)
    as (u2 & Hres2 & Hback2 & Hq2 & _).
  exists (toString api u1), u1, (toString api u2), u2.
  repeat split; trivial.
  intros key. rewrite Hq1, Hq2, <- Hlang, <- Hpres.
  rewrite !getAll_merge_entries; trivial.
  - now apply merged_values_perm.
  - unfold keys. eapply Permutation_NoDup; [|exact Hnd].
    now apply Permutation_map.
Qed.

Lemma enhanceCheckoutUrl_entry_order_witness :
  exists r u1 r' u2,
    enhanceCheckoutUrl browser_env (Val "https://pay.example/c/abc?b=0")
      {| language := None; additionalParams := Some [("a", "1"); ("b", "2")];
         preserveExisting := None |} = Normal (Some r) /\
    parse SimpleUrl.api r = Some u1 /\
    enhanceCheckoutUrl browser_env (Val "https://pay.example/c/abc?b=0")
      {| language := None; additionalParams := Some [("b", "2"); ("a", "1")];
         preserveExisting := None |} = Normal (Some r') /\
    parse SimpleUrl.api r' = Some u2 /\
    forall key,
      URLSearchParams.getAll key (searchParams SimpleUrl.api u1)
      = URLSearchParams.getAll key (searchParams SimpleUrl.api u2).
Proof.
  apply (@enhanceCheckoutUrl_entry_order browser_env SimpleUrl.api
           "https://pay.example/c/abc?b=0"
           {| SimpleUrl.scheme := "https"; SimpleUrl.host := "pay.example";
              SimpleUrl.pathname := "/c/abc"; SimpleUrl.query := [("b", "0")];
              SimpleUrl.hash := None |}).
  - reflexivity.
  - exact SimpleUrl_laws.
  - vm_compute; reflexivity.
  - reflexivity.
  - reflexivity.
  - simpl. repeat constructor; simpl; intuition discriminate.
  - simpl. apply perm_swap.
Defined.

(** X12.  Enhancing twice with the same options is the same as enhancing
    once, parameter by parameter: [enhanceCheckoutUrl] applied to its own
    result gives a URL in which every key has the values it has in the
    first result, with the same scheme, host and path. *)
Theorem enhanceCheckoutUrl_idempotent env api checkoutUrl u options :
  URL env = Some api -> UrlLaws api -> parse api checkoutUrl = Some u ->
  NoDup (keys (default [] (additionalParams options))) ->
  exists r u1 r' u2,
    enhanceCheckoutUrl env (Val checkoutUrl) options = Normal (Some r) /\
    parse api r = Some u1 /\
    enhanceCheckoutUrl env (Val r) options = Normal (Some r') /\
    parse api r' = Some u2 /\
    (forall key,
       URLSearchParams.getAll key (searchParams api u2)
       = URLSearchParams.getAll key (searchParams api u1)) /\
    scheme api u2 = scheme api u1 /\ host api u2 = host api u1 /\
    pathname api u2 = pathname api u1.
Proof.
  intros Henv laws Hparse Hnd.
  destruct (enhance_parsed laws env checkoutUrl options Henv Hparse)
    as (u1 & Hres1 & Hback1 & Hq1 & _).
  destruct (enhance_parsed laws env (toString api u1) options Henv Hback1)
    as (u2 & Hres2 & Hback2 & Hq2 & Hbase).
  exists (toString api u1), u1, (toString api u2), u2.
  repeat split; try tauto.
  intros key. rewrite Hq2, Hq1.
  rewrite !getAll_merge_entries, !getAll_language_applied by assumption.
  rewrite getAll_merge_entries, getAll_language_applied by assumption.
  apply values_idem.
Qed.

Lemma enhanceCheckoutUrl_idempotent_witness :
  exists r u1 r' u2,
    enhanceCheckoutUrl browser_env (Val "https://pay.example/c/abc?lang=en")
      {| language := Some "de"; additionalParams := Some [("lang", "fr")];
         preserveExisting := None |} = Normal (Some r) /\
    parse SimpleUrl.api r = Some u1 /\
    enhanceCheckoutUrl browser_env (Val r)
      {| language := Some "de"; additionalParams := Some [("lang", "fr")];
         preserveExisting := None |} = Normal (Some r') /\
    parse SimpleUrl.api r' = Some u2 /\
    (forall key,
       URLSearchParams.getAll key (searchParams SimpleUrl.api u2)
       = URLSearchParams.getAll key (searchParams SimpleUrl.api u1)).
Proof.
  destruct (@enhanceCheckoutUrl_idempotent browser_env SimpleUrl.api
              "https://pay.example/c/abc?lang=en"
              {| SimpleUrl.scheme := "https"; SimpleUrl.host := "pay.example";
                 SimpleUrl.pathname := "/c/abc";
                 SimpleUrl.query := [("lang", "en")];
                 SimpleUrl.hash := None |}
              {| language := Some "de"; additionalParams := Some [("lang", "fr")];
                 preserveExisting := None |}
              eq_refl SimpleUrl_laws eq_refl)
    as (r & u1 & r' & u2 & H1 & H2 & H3 & H4 & H5 & _).
  - simpl. repeat constructor; simpl; intuition discriminate.
  - exists r, u1, r', u2. repeat split; assumption.
Defined.

(* ================================================================== *)
(** ** Reading the language back *)

Lemma valid_nonempty lang : isValidLanguageCode lang = true -> lang <> "".
Proof. intros H ->. discriminate H. Qed.

(** X13.  For every string that parses as a URL and every non-empty
    language, in particular every code that [isValidLanguageCode] accepts,
    [extractLanguageFromUrl] applied to the result of
    [enhanceCheckoutUrl(url, { language })] returns that language. *)
Theorem language_roundtrip env api checkoutUrl u lang :
  URL env = Some api -> UrlLaws api -> parse api checkoutUrl = Some u ->
  lang <> "" \/ isValidLanguageCode lang = true ->
  exists r,
    enhanceCheckoutUrl env (Val checkoutUrl) (language_only lang)
    = Normal (Some r) /\
    extractLanguageFromUrl env r = Normal (Some lang).
Proof.
  intros Henv laws Hparse Hlang.
  assert (Hne : lang <> "") by (destruct Hlang; [assumption|now apply valid_nonempty]).
  destruct (enhance_parsed laws env checkoutUrl (language_only lang) Henv Hparse)
    as (u' & Hres & Hback & Hq & _).
  exists (toString api u'). split; [exact Hres|].
  rewrite (extract_parsed env _ Henv Hback), Hq. simpl.
  apply truthy_nonempty in Hne as Ht. rewrite Ht, get_set_same.
  now rewrite or_else_nonempty.
Qed.

Lemma language_roundtrip_witness :
  exists r,
    enhanceCheckoutUrl browser_env (Val "https://pay.example/c/abc?locale=fr")
      (language_only "pt-BR") = Normal (Some r) /\
    extractLanguageFromUrl browser_env r = Normal (Some "pt-BR").
Proof.
  apply (@language_roundtrip browser_env SimpleUrl.api
           "https://pay.example/c/abc?locale=fr"
           {| SimpleUrl.scheme := "https"; SimpleUrl.host := "pay.example";
              SimpleUrl.pathname := "/c/abc";
              SimpleUrl.query := [("locale", "fr")];
              SimpleUrl.hash := None |}).
  - reflexivity.
  - exact SimpleUrl_laws.
  - vm_compute; reflexivity.
  - right. vm_compute; reflexivity.
Defined.

(** The language read from a query depends only on the values of [lang],
    [language] and [locale]. *)
Lemma extract_same_candidates env api s u s' u' :
  URL env = Some api -> parse api s = Some u -> parse api s' = Some u' ->
  (forall key, key = "lang" \/ key = "language" \/ key = "locale" ->
     URLSearchParams.getAll key (searchParams api u')
     = URLSearchParams.getAll key (searchParams api u)) ->
  extractLanguageFromUrl env s' = extractLanguageFromUrl env s.
Proof.
  intros Henv Hparse Hparse' Hsame.
  rewrite (extract_parsed env s Henv Hparse),
    (extract_parsed env s' Henv Hparse').
  rewrite !get_head_getAll, !Hsame by tauto. reflexivity.
Qed.

(** X14.  Enhancing with options that carry no non-empty language and no
    entry named [lang], [language] or [locale] does not change what
    [extractLanguageFromUrl] returns. *)
Theorem extract_unaffected_by_other_params env api checkoutUrl u options :
  URL env = Some api -> UrlLaws api -> parse api checkoutUrl = Some u ->
  truthy_opt (language options) = false ->
  ~ In "lang" (keys (default [] (additionalParams options))) ->
  ~ In "language" (keys (default [] (additionalParams options))) ->
  ~ In "locale" (keys (default [] (additionalParams options))) ->
  exists r,
    enhanceCheckoutUrl env (Val checkoutUrl) options = Normal (Some r) /\
    extractLanguageFromUrl env r = extractLanguageFromUrl env checkoutUrl.
Proof.
  intros Henv laws Hparse Hlang H1 H2 H3.
  destruct (enhance_parsed laws env checkoutUrl options Henv Hparse)
    as (u' & Hres & Hback & Hq & _).
  exists (toString api u'). split; [exact Hres|].
  apply (@extract_same_candidates env api checkoutUrl u (toString api u') u'
           Henv Hparse Hback).
  intros key Hkey. rewrite Hq.
  rewrite merge_entries_other by (destruct Hkey as [->|[->| ->]]; assumption).
  apply language_applied_other. now left.
Qed.

Lemma extract_unaffected_by_other_params_witness :
  exists r,
    enhanceCheckoutUrl browser_env (Val "https://pay.example/c/abc?locale=fr")
      {| language := None; additionalParams := Some [("theme", "dark")];
         preserveExisting := Some false |} = Normal (Some r) /\
    extractLanguageFromUrl browser_env r
    = extractLanguageFromUrl browser_env "https://pay.example/c/abc?locale=fr".
Proof.
  apply (@extract_unaffected_by_other_params browser_env SimpleUrl.api
           "https://pay.example/c/abc?locale=fr"
           {| SimpleUrl.scheme := "https"; SimpleUrl.host := "pay.example";
              SimpleUrl.pathname := "/c/abc";
              SimpleUrl.query := [("locale", "fr")];
              SimpleUrl.hash := None |}).
  - reflexivity.
  - exact SimpleUrl_laws.
  - vm_compute; reflexivity.
  - reflexivity.
  - simpl. intros [H|[]]; discriminate H.
  - simpl. intros [H|[]]; discriminate H.
  - simpl. intros [H|[]]; discriminate H.
Defined.

(** X15.  [extractLanguageFromUrl] on the result of
    [getIframeSafeCheckoutUrl(url, l)], for a string that parses: the
    language [l] when a non-empty one is passed, and otherwise what it
    returns on [url] itself, the [embedded] marker making no difference. *)
Theorem extract_after_iframe env api checkoutUrl u lang :
  URL env = Some api -> UrlLaws api -> parse api checkoutUrl = Some u ->
  exists r,
    getIframeSafeCheckoutUrl env (Val checkoutUrl) lang = Normal (Some r) /\
    (forall l, lang = Some l -> l <> "" ->
       extractLanguageFromUrl env r = Normal (Some l)) /\
    (truthy_opt lang = false ->
     extractLanguageFromUrl env r = extractLanguageFromUrl env checkoutUrl).
Proof.
  intros Henv laws Hparse. unfold getIframeSafeCheckoutUrl.
  match goal with |- context [enhanceCheckoutUrl env (Val checkoutUrl) ?o] =>
    destruct (enhance_parsed laws env checkoutUrl o Henv Hparse)
      as (u' & Hres & Hback & Hq & _)
  end.
  exists (toString api u'). split; [exact Hres|]. split.
  - intros l -> Hl%truthy_nonempty.
    rewrite (extract_parsed env _ Henv Hback), Hq. simpl. rewrite Hl. simpl.
    rewrite Hl. rewrite (get_set_other "true" (name := "lang")) by discriminate.
    rewrite get_set_same. apply truthy_nonempty in Hl.
    now rewrite or_else_nonempty.
  - intros Hl. apply (@extract_same_candidates env api checkoutUrl u (toString api u') u'
           Henv Hparse Hback).
    intros key Hkey. rewrite Hq, Hl. simpl.
    apply getAll_set_other. destruct Hkey as [->|[->| ->]]; discriminate.
Qed.

Lemma extract_after_iframe_witness :
  exists r,
    getIframeSafeCheckoutUrl browser_env (Val "https://pay.example/c/abc")
      (Some "de") = Normal (Some r) /\
    extractLanguageFromUrl browser_env r = Normal (Some "de").
Proof.
  destruct (@extract_after_iframe browser_env SimpleUrl.api
              "https://pay.example/c/abc"
              {| SimpleUrl.scheme := "https"; SimpleUrl.host := "pay.example";
                 SimpleUrl.pathname := "/c/abc"; SimpleUrl.query := [];
                 SimpleUrl.hash := None |} (Some "de")
              eq_refl SimpleUrl_laws eq_refl) as (r & Hres & Hlang & _).
  exists r. split; [exact Hres|]. apply (Hlang "de"); [reflexivity|discriminate].
Defined.

(* ================================================================== *)
(** ** The example script *)

Section ExampleFacts.

Import Example.

Lemma append_returns env checkoutUrl lang :
  returns (appendLanguageToCheckoutUrl env checkoutUrl lang).
Proof.
  unfold returns, appendLanguageToCheckoutUrl, new_URL.
  destruct (URL env) as [api|]; [|now eexists].
  destruct (parse api checkoutUrl); simpl; now eexists.
Qed.

Lemma chosen_language_nonempty env preferred :
  chosen_language env preferred = ""
  -> BrowserUtils.getPreferredLanguage env = "".
Proof.
  unfold chosen_language. destruct preferred as [[|c p]|]; simpl; auto.
  discriminate.
Qed.

(** X16.  [createCheckoutWithAutoLanguage] sends one request, which forces
    the user's preferred language when that is non-empty and otherwise the
    language [BrowserUtils.getPreferredLanguage()] returns.  It rejects
    with the client's error when the request is rejected, returns null when
    the session has no checkout URL, and otherwise returns that URL with
    the same language appended by [appendLanguageToCheckoutUrl].  It writes
    nothing to the console. *)
Theorem createCheckoutWithAutoLanguage_language c
  (w : World (recording c)) preferred :
  exists request answer sv' result w',
    @createCheckoutWithAutoLanguage (recording c) preferred w = (result, w') /\
    create c request (fst (server w)) = (answer, sv') /\
    forced_language request
    = Some (chosen_language (globals w) preferred) /\
    server w' = (sv', snd (server w) ++ [request]) /\
    globals w' = globals w /\ console w' = console w /\
    (forall e, answer = Throw e -> result = Throw e) /\
    (forall session, answer = Normal session ->
       truthy_nullable (checkout_url session) = false ->
       result = Normal None) /\
    (forall session checkoutUrl,
       answer = Normal session -> checkout_url session = Val checkoutUrl ->
       checkoutUrl <> "" ->
       exists r,
         appendLanguageToCheckoutUrl (globals w) checkoutUrl
           (chosen_language (globals w) preferred) = Normal r /\
         result = Normal (Some r)).
Proof.
  unfold createCheckoutWithAutoLanguage, andThen, await_create.
  fold (BrowserUtils.getPreferredLanguage (globals w)).
  fold (chosen_language (globals w) preferred).
  set (lang := chosen_language (globals w) preferred).
  match goal with |- context [create (recording c) ?p (server w)] =>
    set (request := p) end.
  cbn [create recording].
  destruct (create c request (fst (server w))) as [answer sv'] eqn:E.
  exists request, answer, sv'.
  destruct answer as [session|e].
  - destruct (checkout_url session) as [| |checkoutUrl] eqn:Eurl.
    + eexists _, _. split; [reflexivity|].
      repeat split; try reflexivity; try discriminate; try exact E.
      intros s' url [= <-]. rewrite Eurl. discriminate.
    + eexists _, _. split; [reflexivity|].
      repeat split; try reflexivity; try discriminate; try exact E.
      intros s' url [= <-]. rewrite Eurl. discriminate.
    + destruct (truthy checkoutUrl) eqn:Et.
      * unfold inEnv, ret. cbn [globals].
        destruct (append_returns (globals w) checkoutUrl lang) as [r Ha].
        rewrite Ha.
        eexists _, _. split; [reflexivity|].
        repeat split; try reflexivity; try discriminate; try exact E.
        -- intros s' [= <-]. rewrite Eurl. simpl. congruence.
        -- intros s' url [= <-]. rewrite Eurl. intros [= <-] _.
           exists r. now split.
      * eexists _, _. split; [reflexivity|].
        repeat split; try reflexivity; try discriminate; try exact E.
        intros s' url [= <-]. rewrite Eurl. intros [= <-] Hne.
        apply truthy_nonempty in Hne. congruence.
  - eexists _, _. split; [reflexivity|].
    repeat split; try reflexivity; try discriminate; try exact E.
    now intros e' [= <-].
Qed.

Lemma createCheckoutWithAutoLanguage_language_witness :
  exists request result w',
    @createCheckoutWithAutoLanguage (recording demo_client) (Some "")
      (@Build_World (recording demo_client) browser_env None (0, []))
    = (result, w') /\
    forced_language request = Some "de" /\
    snd (server w') = [request].
Proof.
  destruct (@createCheckoutWithAutoLanguage_language demo_client
              (@Build_World (recording demo_client) browser_env None (0, []))
              (Some ""))
    as (request & answer & sv' & result & w' & Hrun & _ & Hreq & Hsv & _).
  exists request, result, w'. split; [exact Hrun|]. split; [exact Hreq|].
  rewrite Hsv. reflexivity.
Defined.

(** The answers are as many as the requests. *)
Lemma serve_length c requests :
  forall sv, List.length (fst (serve c requests sv)) = List.length requests.
Proof.
  induction requests as [|p ps IH]; intros sv; simpl; [reflexivity|].
  destruct (create c p sv) as [a sv1]. specialize (IH sv1).
  destruct (serve c ps sv1) as [answers sv']. simpl in *. now rewrite IH.
Qed.

(** The recording client answers as the client does, and adds the requests
    to its record. *)
Lemma serve_recording c requests :
  forall sv record,
    serve (recording c) requests (sv, record)
    = (fst (serve c requests sv),
       (snd (serve c requests sv), record ++ requests)).
Proof.
  induction requests as [|p ps IH]; intros sv record; simpl.
  - now rewrite app_nil_r.
  - destruct (create c p sv) as [a sv1]. rewrite IH.
    destruct (serve c ps sv1) as [answers sv']. simpl.
    now rewrite <- app_assoc.
Qed.

Lemma entries_of_languages env pairs out :
  entries_of env pairs out -> subsequence (map fst out) (map fst pairs).
Proof. induction 1; simpl; now constructor. Qed.

Lemma combine_fst {A B} (l : list A) (l' : list B) :
  List.length l = List.length l' -> map fst (combine l l') = l.
Proof.
  revert l'; induction l as [|x l IH]; intros [|y l'] H; simpl in *;
    try discriminate; [reflexivity|]. now rewrite IH by congruence.
Qed.

(** One run of the loop that resolves: the client has answered the request
    of every language with a session, and the entries added are those of
    the languages with these sessions. *)
Lemma multiLanguageLoop_resolved c languages :
  forall sessions (w : World c) result w',
    multiLanguageLoop languages sessions w = (Normal result, w') ->
    exists answered added,
      serve c (map language_request languages) (server w)
      = (map (@Normal CheckoutSession) answered, server w') /\
      entries_of (globals w) (combine languages answered) added /\
      result = sessions ++ added /\
      globals w' = globals w /\ console w' = console w.
Proof.
  induction languages as [|lang languages IH]; intros sessions w result w'.
  - intros [= <- <-]. exists [], []. rewrite app_nil_r.
    repeat split. constructor.
  - cbn [multiLanguageLoop map serve]. unfold andThen at 1, await_create.
    fold (language_request lang).
    destruct (create c (language_request lang) (server w)) as [answer sv1].
    destruct answer as [session|e]; [|discriminate].
    set (w1 := @Build_World c (globals w) (console w) sv1).
    assert (Hskip : truthy_nullable (checkout_url session) = false ->
              multiLanguageLoop languages sessions w1 = (Normal result, w') ->
              exists answered added,
                (let (answers, sv') :=
                   serve c (map language_request languages) sv1 in
                 (Normal session :: answers, sv'))
                = (map (@Normal CheckoutSession) answered, server w') /\
                entries_of (globals w) (combine (lang :: languages) answered)
                  added /\
                result = sessions ++ added /\
                globals w' = globals w /\ console w' = console w).
    { intros Hno H.
      apply IH in H as (answered & added & Hserve & Hent & -> & Hg & Hc).
      exists (session :: answered), added.
      cbn [server w1] in Hserve. rewrite Hserve.
      repeat split; trivial. simpl. now constructor. }
    destruct (checkout_url session) as [| |checkoutUrl] eqn:Eurl;
      try (apply Hskip; reflexivity).
    destruct (truthy checkoutUrl) eqn:Et; [|now apply Hskip].
    unfold andThen, inEnv.
    destruct (append_returns (globals w1) checkoutUrl lang) as [url Hurl].
    rewrite Hurl. intros H.
    apply IH in H as (answered & added & Hserve & Hent & -> & Hg & Hc).
    exists (session :: answered), ((lang, url) :: added).
    cbn [server w1] in Hserve. rewrite Hserve, <- app_assoc.
    repeat split; trivial. simpl.
    apply entries_keep with (checkoutUrl := checkoutUrl); trivial.
    now apply truthy_nonempty.
Qed.

(** The loop resolves when the client answers every request with a
    session. *)
Lemma multiLanguageLoop_resolves c languages :
  forall sessions (w : World c) answered sv,
    serve c (map language_request languages) (server w)
    = (map (@Normal CheckoutSession) answered, sv) ->
    exists result,
      multiLanguageLoop languages sessions w
      = (Normal result, @Build_World c (globals w) (console w) sv).
Proof.
  induction languages as [|lang languages IH]; intros sessions w answered sv.
  - simpl. intros [= _ <-]. exists sessions. now destruct w.
  - cbn [multiLanguageLoop map serve]. unfold andThen at 1, await_create.
    fold (language_request lang).
    destruct (create c (language_request lang) (server w)) as [answer sv1].
    destruct (serve c (map language_request languages) sv1)
      as [answers sv'] eqn:Eserve.
    destruct answered as [|session answered]; [discriminate|].
    intros [= -> Hanswers <-].
    set (w1 := @Build_World c (globals w) (console w) sv1).
    assert (Hnext : forall sessions',
              exists result,
                multiLanguageLoop languages sessions' w1
                = (Normal result, @Build_World c (globals w) (console w) sv')).
    { intros sessions'.
      apply (IH sessions' w1 answered sv'). cbn [server w1].
      now rewrite Eserve, Hanswers. }
    destruct (checkout_url session) as [| |checkoutUrl]; try apply Hnext.
    destruct (truthy checkoutUrl); [|apply Hnext].
    unfold andThen, inEnv.
    destruct (append_returns (globals w1) checkoutUrl lang) as [url ->].
    apply Hnext.
Qed.

(** The loop rejects at the first request the client rejects, and goes no
    further. *)
Lemma multiLanguageLoop_rejects c done :
  forall sessions (w : World c) lang rest answered sv e sv',
    serve c (map language_request done) (server w) = (map (@Normal CheckoutSession) answered, sv) ->
    create c (language_request lang) sv = (Throw e, sv') ->
    multiLanguageLoop (done ++ lang :: rest) sessions w
    = (Throw e, @Build_World c (globals w) (console w) sv').
Proof.
  induction done as [|first done IH];
    intros sessions w lang rest answered sv e sv'.
  - simpl. intros [= _ <-] Hreject.
    cbn [multiLanguageLoop]. unfold andThen at 1, await_create.
    fold (language_request lang). now rewrite Hreject.
  - cbn [app multiLanguageLoop map serve]. unfold andThen at 1, await_create.
    fold (language_request first).
    destruct (create c (language_request first) (server w)) as [answer sv1].
    destruct (serve c (map language_request done) sv1)
      as [answers sv2] eqn:Eserve.
    destruct answered as [|session answered]; [discriminate|].
    intros [= -> Hanswers <-] Hreject.
    set (w1 := @Build_World c (globals w) (console w) sv1).
    assert (Hnext : forall sessions',
              multiLanguageLoop (done ++ lang :: rest) sessions' w1
              = (Throw e, @Build_World c (globals w) (console w) sv')).
    { intros sessions'.
      apply (IH sessions' w1 lang rest answered sv2 e sv'); [|exact Hreject].
      cbn [server w1]. now rewrite Eserve, Hanswers. }
    destruct (checkout_url session) as [| |checkoutUrl]; try apply Hnext.
    destruct (truthy checkoutUrl); [|apply Hnext].
    unfold andThen, inEnv.
    destruct (append_returns (globals w1) checkoutUrl first) as [url ->].
    apply Hnext.
Qed.

(** X17.  When [createMultiLanguageCheckouts] resolves, the client has
    answered the requests for en, de, es, fr, it, sent one after the other
    from the state the run started in, with five sessions.  The result
    lists, in that order, the languages whose session has a non-empty
    checkout URL, each with the URL of its own session as
    [appendLanguageToCheckoutUrl] returns it for that language; the other
    languages are left out.  The console is not written to. *)
Theorem createMultiLanguageCheckouts_entries c (w : World c) result w' :
  @createMultiLanguageCheckouts c w = (Normal result, w') ->
  exists answered,
    serve c (map language_request ["en"; "de"; "es"; "fr"; "it"]) (server w)
    = (map (@Normal CheckoutSession) answered, server w') /\
    List.length answered = 5 /\
    entries_of (globals w) (combine ["en"; "de"; "es"; "fr"; "it"] answered)
      result /\
    subsequence (map fst result) ["en"; "de"; "es"; "fr"; "it"] /\
    globals w' = globals w /\ console w' = console w.
Proof.
  intros H. apply multiLanguageLoop_resolved in H
    as (answered & added & Hserve & Hent & -> & Hg & Hc).
  assert (Hlen : List.length answered = 5).
  { pose proof (serve_length c
                  (map language_request ["en"; "de"; "es"; "fr"; "it"])
                  (server w)) as Hl.
    rewrite Hserve in Hl. simpl in Hl. now rewrite List.length_map in Hl. }
  exists answered. repeat split; trivial.
  apply entries_of_languages in Hent.
  now rewrite combine_fst in Hent by (now rewrite Hlen).
Qed.

Lemma createMultiLanguageCheckouts_entries_witness :
  exists result,
    fst (@createMultiLanguageCheckouts demo_client demo_world) = Normal result /\
    map fst result = ["en"; "de"; "fr"; "it"] /\
    subsequence (map fst result) ["en"; "de"; "es"; "fr"; "it"].
Proof.
  assert (H : fst (@createMultiLanguageCheckouts demo_client demo_world)
              = Normal
                  [("en", "https://pay.example/c/abc?lang=en&language=en");
                   ("de", "https://pay.example/c/abc?lang=de&language=de");
                   ("fr", "https://pay.example/c/abc?lang=fr&language=fr");
                   ("it", "https://pay.example/c/abc?lang=it&language=it")])
    by (vm_compute; reflexivity).
  eexists. split; [exact H|]. split; [reflexivity|].
  destruct (@createMultiLanguageCheckouts_entries demo_client demo_world
              [("en", "https://pay.example/c/abc?lang=en&language=en");
               ("de", "https://pay.example/c/abc?lang=de&language=de");
               ("fr", "https://pay.example/c/abc?lang=fr&language=fr");
               ("it", "https://pay.example/c/abc?lang=it&language=it")]
              (snd (@createMultiLanguageCheckouts demo_client demo_world)))
    as (answered & _ & _ & _ & Hsub & _).
  - rewrite <- H. apply surjective_pairing.
  - exact Hsub.
Defined.

(** X18.  [createMultiLanguageCheckouts] sends the requests for en, de, es,
    fr, it in that order, each forcing its own language, and stops at the
    first that is rejected.  If the client answers all five with sessions,
    the function resolves and exactly these five requests have been sent.
    If the client answers the requests of the first languages with sessions
    and rejects the next one, the function rejects with that error, and the
    requests sent are those up to the rejected one: none is sent for the
    languages after it. *)
Theorem createMultiLanguageCheckouts_requests c (w : World (recording c)) :
  (forall lang, forced_language (language_request lang) = Some lang) /\
  (forall answered sv,
     serve c (map language_request ["en"; "de"; "es"; "fr"; "it"])
       (fst (server w)) = (map (@Normal CheckoutSession) answered, sv) ->
     exists result w',
       @createMultiLanguageCheckouts (recording c) w = (Normal result, w') /\
       server w'
       = (sv, snd (server w)
              ++ map language_request ["en"; "de"; "es"; "fr"; "it"])) /\
  (forall done lang rest answered sv e sv',
     ["en"; "de"; "es"; "fr"; "it"] = done ++ lang :: rest ->
     serve c (map language_request done) (fst (server w))
     = (map (@Normal CheckoutSession) answered, sv) ->
     create c (language_request lang) sv = (Throw e, sv') ->
     exists w',
       @createMultiLanguageCheckouts (recording c) w = (Throw e, w') /\
       server w'
       = (sv', snd (server w) ++ map language_request (done ++ [lang]))).
Proof.
  destruct w as [g con [sv0 record]]. cbn [server fst snd].
  split; [reflexivity|]. split.
  - intros answered sv Hserve.
    destruct (@multiLanguageLoop_resolves (recording c)
                ["en"; "de"; "es"; "fr"; "it"] []
                (@Build_World (recording c) g con (sv0, record)) answered
                (sv, record ++ map language_request
                                 ["en"; "de"; "es"; "fr"; "it"]))
      as [result Hrun].
    + cbn [server]. rewrite serve_recording, Hserve. reflexivity.
    + eexists _, _. split; [exact Hrun|reflexivity].
  - intros done lang rest answered sv e sv' Hsplit Hserve Hreject.
    unfold createMultiLanguageCheckouts. rewrite Hsplit.
    eexists. split.
    + apply (@multiLanguageLoop_rejects (recording c) done []
               (@Build_World (recording c) g con (sv0, record)) lang rest
               answered (sv, record ++ map language_request done) e
               (sv', (record ++ map language_request done)
                     ++ [language_request lang])).
      * cbn [server]. rewrite serve_recording, Hserve. reflexivity.
      * cbn [create recording fst snd]. now rewrite Hreject.
    + cbn [server]. now rewrite map_app, app_assoc.
Qed.

Lemma createMultiLanguageCheckouts_requests_witness :
  exists w',
    @createMultiLanguageCheckouts (recording offline_client)
      (@Build_World (recording offline_client) bare_env None (tt, []))
    = (Throw (Error "Connection error."), w') /\
    server w' = (tt, [language_request "en"]).
Proof.
  apply (proj2 (proj2 (@createMultiLanguageCheckouts_requests offline_client
           (@Build_World (recording offline_client) bare_env None (tt, []))))
           [] "en" ["de"; "es"; "fr"; "it"] [] tt (Error "Connection error.")
           tt); reflexivity.
Defined.

(** A URL with a non-empty language appended reads back that language. *)
Lemma append_readable env api checkoutUrl u lang :
  URL env = Some api -> UrlLaws api -> parse api checkoutUrl = Some u ->
  lang <> "" ->
  exists r,
    appendLanguageToCheckoutUrl env checkoutUrl lang = Normal r /\
    extractLanguageFromUrl env r = Normal (Some lang).
Proof.
  intros Henv laws Hparse Hlang.
  destruct (append_parsed laws env checkoutUrl lang Henv Hparse)
    as (u' & Hres & Hback & Hq & _).
  exists (toString api u'). split; [exact Hres|].
  rewrite (extract_parsed env _ Henv Hback), Hq.
  rewrite (get_set_other lang (name := "lang")) by discriminate.
  rewrite get_set_same. now rewrite or_else_nonempty.
Qed.

Lemma parsed_truthy api s u :
  UrlLaws api -> parse api s = Some u -> truthy s = true.
Proof.
  intros laws H. apply truthy_nonempty. intros ->.
  rewrite (parse_empty laws) in H. discriminate.
Qed.

Lemma multiLanguageLoop_complete c api languages :
  answers_with_urls api c -> UrlLaws api ->
  forall sessions (w : World c),
    URL (globals w) = Some api ->
    exists added w',
      multiLanguageLoop languages sessions w = (Normal (sessions ++ added), w') /\
      map fst added = languages /\
      (forall lang url, In (lang, url) added -> lang <> "" ->
         extractLanguageFromUrl (globals w) url = Normal (Some lang)).
Proof.
  intros Hclient laws.
  induction languages as [|lang languages IH]; intros sessions w Henv.
  - exists [], w. rewrite app_nil_r. repeat split. contradiction.
  - cbn [multiLanguageLoop]. unfold andThen at 1, await_create.
    match goal with |- context [create c ?p (server w)] =>
      destruct (Hclient p (server w))
        as (session & sv' & checkoutUrl & u & -> & Hurl & Hparse)
    end.
    rewrite Hurl, (@parsed_truthy api checkoutUrl u laws Hparse).
    unfold andThen, inEnv. cbn [globals].
    set (w1 := @Build_World c (globals w) (console w) sv').
    assert (Hread : lang <> "" ->
              exists r,
                appendLanguageToCheckoutUrl (globals w) checkoutUrl lang
                = Normal r /\
                extractLanguageFromUrl (globals w) r = Normal (Some lang))
      by (intros Hl;
          now apply (@append_readable (globals w) api checkoutUrl u lang
                       Henv laws Hparse)).
    destruct (append_returns (globals w) checkoutUrl lang) as [url Hurl'].
    rewrite Hurl'.
    destruct (IH (sessions ++ [(lang, url)]) w1 Henv)
      as (added & w' & Hrun & Hfst & Hin).
    exists ((lang, url) :: added), w'. rewrite <- app_assoc in Hrun.
    repeat split.
    + exact Hrun.
    + simpl. now rewrite Hfst.
    + intros l r [[= <- <-]|Hi] Hl; [|now apply Hin].
      destruct (Hread Hl) as (r' & Hr' & Hex). congruence.
Qed.

(** X19.  With a client that answers every request with a session whose
    checkout URL parses, [createMultiLanguageCheckouts] resolves with
    exactly five entries, for en, de, es, fr, it in that order, and
    [extractLanguageFromUrl] reads from the URL of each entry the entry's
    language. *)
Theorem createMultiLanguageCheckouts_complete c api (w : World c) :
  answers_with_urls api c -> UrlLaws api -> URL (globals w) = Some api ->
  exists result w',
    @createMultiLanguageCheckouts c w = (Normal result, w') /\
    map fst result = ["en"; "de"; "es"; "fr"; "it"] /\
    (forall lang url, In (lang, url) result ->
       extractLanguageFromUrl (globals w) url = Normal (Some lang)).
Proof.
  intros Hclient laws Henv.
  destruct (@multiLanguageLoop_complete c api ["en"; "de"; "es"; "fr"; "it"]
              Hclient laws [] w Henv) as (added & w' & Hrun & Hfst & Hin).
  exists added, w'. repeat split; trivial.
  intros lang url Hi. apply (Hin _ _ Hi).
  apply (in_map fst) in Hi. rewrite Hfst in Hi. simpl in Hi.
  intros ->. intuition discriminate.
Qed.

Lemma steady_client_answers : answers_with_urls SimpleUrl.api steady_client.
Proof.
  intros params sv. eexists _, _, _, _. split; [reflexivity|].
  split; [reflexivity|]. vm_compute; reflexivity.
Qed.

Lemma createMultiLanguageCheckouts_complete_witness :
  exists result w',
    @createMultiLanguageCheckouts steady_client
      (@Build_World steady_client browser_env None tt) = (Normal result, w') /\
    map fst result = ["en"; "de"; "es"; "fr"; "it"].
Proof.
  destruct (@createMultiLanguageCheckouts_complete steady_client SimpleUrl.api
              (@Build_World steady_client browser_env None tt)
              steady_client_answers SimpleUrl_laws eq_refl)
    as (result & w' & Hrun & Hfst & _).
  now exists result, w'.
Defined.

(** X20.  With such a client, and a chosen language that is not empty,
    [createCheckoutWithAutoLanguage] resolves with a URL from which
    [extractLanguageFromUrl] reads the chosen language: the user's
    preference, or else the browser's. *)
Theorem createCheckoutWithAutoLanguage_readable c api (w : World c) preferred :
  answers_with_urls api c -> UrlLaws api -> URL (globals w) = Some api ->
  chosen_language (globals w) preferred <> "" ->
  exists r w',
    @createCheckoutWithAutoLanguage c preferred w = (Normal (Some r), w') /\
    extractLanguageFromUrl (globals w) r
    = Normal (Some (chosen_language (globals w) preferred)).
Proof.
  intros Hclient laws Henv Hlang.
  unfold createCheckoutWithAutoLanguage, andThen, await_create.
  fold (BrowserUtils.getPreferredLanguage (globals w)).
  fold (chosen_language (globals w) preferred).
  match goal with |- context [create c ?p (server w)] =>
    destruct (Hclient p (server w))
      as (session & sv' & checkoutUrl & u & -> & Hurl & Hparse)
  end.
  rewrite Hurl, (@parsed_truthy api checkoutUrl u laws Hparse). unfold inEnv, ret. cbn [globals].
  destruct (@append_readable (globals w) api checkoutUrl u _
              Henv laws Hparse Hlang) as (r & -> & Hread).
  now eexists _, _.
Qed.

Lemma createCheckoutWithAutoLanguage_readable_witness :
  exists r w',
    @createCheckoutWithAutoLanguage steady_client None
      (@Build_World steady_client browser_env None tt)
    = (Normal (Some r), w') /\
    extractLanguageFromUrl browser_env r = Normal (Some "de").
Proof.
  apply (@createCheckoutWithAutoLanguage_readable steady_client SimpleUrl.api
           (@Build_World steady_client browser_env None tt) None
           steady_client_answers SimpleUrl_laws eq_refl).
  vm_compute. discriminate.
Defined.

(** What a call of [console.log] leaves behind. *)
Lemma console_log_world c (w : World c) args :
  console_log args w
  = (Normal tt,
     @Build_World c (globals w)
       (option_map (fun entries => entries ++ [args]) (console w))
       (server w)).
Proof. unfold console_log. destruct w as [g [entries|] sv]; reflexivity. Qed.

(** X21.  [checkoutFlowWithLanguageWorkaround] sends one request, forcing
    German.  If the request is rejected it rejects with the client's error
    and logs nothing.  If the session has no checkout URL it throws
    "No checkout URL returned", after the session id has been logged.
    Otherwise it returns the session id with the checkout URL to which
    [appendLanguageToCheckoutUrl] has appended [de], and the console, if
    there is one, has received the session id, the original URL and the
    modified URL, in that order. *)
Theorem checkoutFlowWithLanguageWorkaround_outcome c (w : World (recording c)) :
  exists request answer sv' result w',
    @checkoutFlowWithLanguageWorkaround (recording c) w = (result, w') /\
    create c request (fst (server w)) = (answer, sv') /\
    forced_language request = Some "de" /\
    server w' = (sv', snd (server w) ++ [request]) /\
    globals w' = globals w /\
    (forall e, answer = Throw e ->
       result = Throw e /\ console w' = console w) /\
    (forall session, answer = Normal session ->
       truthy_nullable (checkout_url session) = false ->
       result = Throw (Error "No checkout URL returned") /\
       console w'
       = option_map
           (fun entries =>
              entries ++ [["Checkout session created:"; session_id session]])
           (console w)) /\
    (forall session checkoutUrl,
       answer = Normal session -> checkout_url session = Val checkoutUrl ->
       checkoutUrl <> "" ->
       exists r,
         appendLanguageToCheckoutUrl (globals w) checkoutUrl "de" = Normal r /\
         result = Normal (session_id session, r) /\
         console w'
         = option_map
             (fun entries =>
                entries ++ [["Checkout session created:"; session_id session];
                            ["Original URL:"; checkoutUrl];
                            ["Modified URL:"; r]])
             (console w)).
Proof.
  unfold checkoutFlowWithLanguageWorkaround, createCheckoutWithLanguage.
  unfold andThen at 1, await_create.
  match goal with |- context [create (recording c) ?p (server w)] =>
    set (request := p) end.
  cbn [create recording].
  destruct (create c request (fst (server w))) as [answer sv'] eqn:E.
  exists request, answer, sv'.
  destruct answer as [session|e].
  - unfold andThen at 1. rewrite console_log_world. cbn [globals console server].
    destruct (checkout_url session) as [| |checkoutUrl] eqn:Eurl;
      [| |destruct (truthy checkoutUrl) eqn:Et].
    + unfold throw. eexists _, _. split; [reflexivity|].
      cbn [globals console server].
      split; [exact E|]. do 3 (split; [reflexivity|]). split; [|split].
      * discriminate.
      * intros s0 [= <-] _. now split.
      * intros s0 url [= <-]. rewrite Eurl. discriminate.
    + unfold throw. eexists _, _. split; [reflexivity|].
      cbn [globals console server].
      split; [exact E|]. do 3 (split; [reflexivity|]). split; [|split].
      * discriminate.
      * intros s0 [= <-] _. now split.
      * intros s0 url [= <-]. rewrite Eurl. discriminate.
    + unfold andThen at 1, inEnv. cbn [globals].
      destruct (append_returns (globals w) checkoutUrl "de") as [r Hr].
      rewrite Hr. unfold andThen at 1. rewrite console_log_world.
      unfold andThen at 1. rewrite console_log_world.
      cbn [globals console server]. unfold ret.
      eexists _, _. split; [reflexivity|].
      cbn [globals console server].
      split; [exact E|]. do 3 (split; [reflexivity|]). split; [|split].
      * discriminate.
      * intros s0 [= <-]. rewrite Eurl. simpl. congruence.
      * intros s0 url [= <-]. rewrite Eurl. intros [= <-] _.
        exists r. repeat split; trivial.
        destruct (console w) as [entries|]; [|reflexivity].
        simpl. now rewrite <- !app_assoc.
    + unfold throw. eexists _, _. split; [reflexivity|].
      cbn [globals console server].
      split; [exact E|]. do 3 (split; [reflexivity|]). split; [|split].
      * discriminate.
      * intros s0 [= <-] _. now split.
      * intros s0 url [= <-]. rewrite Eurl. intros [= <-] Hne.
        apply truthy_nonempty in Hne. congruence.
  - eexists _, _. split; [reflexivity|]. cbn [globals console server].
    split; [exact E|]. do 3 (split; [reflexivity|]). split; [|split].
    + intros e' [= <-]. now split.
    + discriminate.
    + discriminate.
Qed.

Lemma checkoutFlowWithLanguageWorkaround_outcome_witness :
  exists request result w',
    @checkoutFlowWithLanguageWorkaround (recording offline_client)
      (@Build_World (recording offline_client) bare_env (Some []) (tt, []))
    = (result, w') /\
    forced_language request = Some "de" /\
    result = Throw (Error "Connection error.") /\
    console w' = Some [].
Proof.
  destruct (@checkoutFlowWithLanguageWorkaround_outcome offline_client
              (@Build_World (recording offline_client) bare_env (Some [])
                 (tt, [])))
    as (request & answer & sv' & result & w' & Hrun & Hans & Hreq & _ & _
        & Hrej & _).
  exists request, result, w'. split; [exact Hrun|]. split; [exact Hreq|].
  apply (Hrej (Error "Connection error.")).
  cbn [create offline_client] in Hans. now injection Hans as <- _.
Defined.

(** X22.  With a client that answers every request with a session whose
    checkout URL parses, [checkoutFlowWithLanguageWorkaround] resolves with
    the session id of the answer and a URL from which
    [extractLanguageFromUrl] reads [de]. *)
Theorem checkoutFlowWithLanguageWorkaround_readable c api (w : World c) :
  answers_with_urls api c -> UrlLaws api -> URL (globals w) = Some api ->
  exists sessionId r w',
    @checkoutFlowWithLanguageWorkaround c w = (Normal (sessionId, r), w') /\
    extractLanguageFromUrl (globals w) r = Normal (Some "de") /\
    globals w' = globals w.
Proof.
  intros Hclient laws Henv.
  unfold checkoutFlowWithLanguageWorkaround, createCheckoutWithLanguage.
  unfold andThen at 1, await_create.
  match goal with |- context [create c ?p (server w)] =>
    destruct (Hclient p (server w))
      as (session & sv' & checkoutUrl & u & -> & Hurl & Hparse)
  end.
  unfold andThen at 1. rewrite console_log_world. cbn [globals console server].
  rewrite Hurl, (@parsed_truthy api checkoutUrl u laws Hparse).
  unfold andThen at 1, inEnv. cbn [globals].
  destruct (@append_readable (globals w) api checkoutUrl u "de"
              Henv laws Hparse) as (r & -> & Hread); [discriminate|].
  unfold andThen at 1. rewrite console_log_world.
  unfold andThen at 1. rewrite console_log_world. unfold ret.
  eexists _, _, _. split; [reflexivity|]. now split.
Qed.

Lemma checkoutFlowWithLanguageWorkaround_readable_witness :
  exists sessionId r w',
    @checkoutFlowWithLanguageWorkaround steady_client
      (@Build_World steady_client browser_env None tt)
    = (Normal (sessionId, r), w') /\
    extractLanguageFromUrl browser_env r = Normal (Some "de").
Proof.
  destruct (@checkoutFlowWithLanguageWorkaround_readable steady_client
              SimpleUrl.api (@Build_World steady_client browser_env None tt)
              steady_client_answers SimpleUrl_laws eq_refl)
    as (sessionId & r & w' & Hrun & Hread & _).
  now exists sessionId, r, w'.
Defined.

End ExampleFacts.
